(** * Order-key maintenance of the grouped, draggable table

    A shallow embedding of the sort-value core of the table component
    (helpers [buildGroups], [findPrevSort], [findNextSort], [updateRowSort],
    [updateGroupSort], the function [computeNewSorts] and the header
    bookkeeping [recomputeGroupSizes]), followed by the properties of the
    order-key scheme.

    The [sort] field is embedded twice.  The top-level definitions compute
    with the canonical rationals [Qc]: arithmetic is exact and equality is
    Leibniz equality; they carry the properties that do not depend on
    rounding, and those stated for exact arithmetic.  Module [Float64]
    repeats the sort calculation over binary64 numbers, as JavaScript
    computes it; it carries the values the program returns and the cases
    where rounding makes two keys meet. *)

From Stdlib Require Import List String Ascii Bool Arith ZArith Lia.
From Stdlib Require Import QArith Qcanon Lqa Permutation.
From Stdlib Require Import PrimFloat.
Import ListNotations.

Local Open Scope string_scope.
Local Open Scope list_scope.
Local Open Scope Qc_scope.

(** ** Numbers *)

Definition Qcltb (x y : Qc) : bool :=
  match x ?= y with Lt => true | _ => false end.

Definition Qcleb (x y : Qc) : bool :=
  match x ?= y with Gt => false | _ => true end.

Definition Qc_of_Z (z : Z) : Qc := Q2Qc (inject_Z z).
Definition Qc_of_nat (n : nat) : Qc := Qc_of_Z (Z.of_nat n).

(** [a ?? d] on a nullable number. *)
Definition nullish (o : option Qc) (d : Qc) : Qc :=
  match o with Some v => v | None => d end.

(** A nullable number used as an operand of [-] or [+]: [null] becomes 0. *)
Definition toNumber (o : option Qc) : Qc :=
  match o with Some v => v | None => 0 end.

(** ** Strings *)

Definition startsWith (s p : string) : bool := String.prefix p s.

(** [s.slice(n)] *)
Definition slice (s : string) (n : nat) : string :=
  substring n (String.length s - n) s.

(** The sortable identifiers [`row:${record.key}`] and
    [`group:${record.groupKey}`]. *)
Definition rowId (k : string) : string := String.append "row:" k.
Definition groupId (g : string) : string := String.append "group:" g.

(** ** Data structure *)

Record RowItem : Type := mkRow {
  key : string;
  groupKey : string;
  groupSize : option nat;
  category : string;
  name : string;
  count : Z;
  sort : Qc
}.

(** [{ ...r }] *)
Definition clone (r : RowItem) : RowItem :=
  mkRow (key r) (groupKey r) (groupSize r) (category r) (name r) (count r)
        (sort r).

(** [{ ...r, sort: s }] *)
Definition setSort (r : RowItem) (s : Qc) : RowItem :=
  mkRow (key r) (groupKey r) (groupSize r) (category r) (name r) (count r) s.

(** [{ ...r, groupSize: n }] *)
Definition setGroupSize (r : RowItem) (n : nat) : RowItem :=
  mkRow (key r) (groupKey r) (Some n) (category r) (name r) (count r) (sort r).

Definition initialData : list RowItem :=
  [ mkRow "1-1" "group-A" (Some 3%nat) "A" "产品 A1" 10 (Qc_of_Z 1);
    mkRow "1-2" "group-A" None "A" "产品 A2" 20 (Qc_of_Z 2);
    mkRow "1-3" "group-A" None "A" "产品 A3" 30 (Qc_of_Z 3);
    mkRow "2-1" "group-B" (Some 2%nat) "B" "产品 B1" 5 (Qc_of_Z 4);
    mkRow "2-2" "group-B" None "B" "产品 B2" 15 (Qc_of_Z 5);
    mkRow "3-1" "group-C" (Some 1%nat) "C" "产品 C1" 40 (Qc_of_Z 6) ].

(** ** Helpers *)

(** [rows.sort((a, b) => a.sort - b.sort)]: a stable sort by ascending
    [sort]; an element is placed before the first one that is not smaller. *)
Fixpoint insertBySort (r : RowItem) (l : list RowItem) : list RowItem :=
  match l with
  | [] => [r]
  | x :: t => if Qcleb (sort r) (sort x) then r :: x :: t
              else x :: insertBySort r t
  end.

Fixpoint sortBySort (l : list RowItem) : list RowItem :=
  match l with
  | [] => []
  | x :: t => insertBySort x (sortBySort t)
  end.

(** [arr[arr.length - 1]] *)
Fixpoint lastRow (l : list RowItem) : option RowItem :=
  match l with
  | [] => None
  | [x] => Some x
  | _ :: t => lastRow t
  end.

(** The insertion-ordered [Map<string, RowItem[]>] of [buildGroups], as an
    association list in insertion order. *)
Definition GroupMap : Type := list (string * list RowItem).

(** [if (!map.has(r.groupKey)) map.set(r.groupKey, []);
     map.get(r.groupKey).push(r)] *)
Fixpoint mapPush (m : GroupMap) (r : RowItem) : GroupMap :=
  match m with
  | [] => [(groupKey r, [r])]
  | (g, rows) :: t =>
      if String.eqb g (groupKey r) then (g, rows ++ [r]) :: t
      else (g, rows) :: mapPush t r
  end.

Definition buildGroups (data : list RowItem) : GroupMap :=
  map (fun e => (fst e, sortBySort (snd e))) (fold_left mapPush data []).

Definition findPrevSort (data : list RowItem) (s : Qc) : option Qc :=
  let arr := sortBySort (filter (fun i => Qcltb (sort i) s) data) in
  match lastRow arr with
  | None => None
  | Some r => Some (sort r)
  end.

Definition findNextSort (data : list RowItem) (s : Qc) : option Qc :=
  let arr := sortBySort (filter (fun i => Qcltb s (sort i)) data) in
  match arr with
  | [] => None
  | r :: _ => Some (sort r)
  end.

Definition updateRowSort (data : list RowItem) (rowKey : string) (newSort : Qc)
  : list RowItem :=
  map (fun r => if String.eqb (key r) rowKey then setSort r newSort else r) data.

(** [data.map(...)] with the counter [idx] threaded through the traversal. *)
Fixpoint updateGroupSortFrom (idx : nat) (data : list RowItem)
  (gk : string) (up JQ : Qc) : list RowItem :=
  match data with
  | [] => []
  | r :: t =>
      if String.eqb (groupKey r) gk
      then setSort r (up + JQ * Qc_of_nat idx)
             :: updateGroupSortFrom (S idx) t gk up JQ
      else r :: updateGroupSortFrom idx t gk up JQ
  end.

Definition updateGroupSort (data : list RowItem) (gk : string) (up JQ : Qc)
  : list RowItem :=
  updateGroupSortFrom 1 data gk up JQ.

(** ** Sort calculation *)

Definition getSortForId (sortedData : list RowItem) (id : string)
  (isTargetingEnd : bool) : option Qc :=
  if startsWith id "row:" then
    let k := slice id 4 in
    match find (fun x => String.eqb (key x) k) sortedData with
    | Some r => Some (sort r)
    | None => None
    end
  else if startsWith id "group:" then
    let gk := slice id 6 in
    let rows :=
      sortBySort (filter (fun x => String.eqb (groupKey x) gk) sortedData) in
    match rows with
    | [] => None
    | r0 :: _ =>
        if isTargetingEnd
        then match lastRow rows with Some r => Some (sort r) | None => None end
        else Some (sort r0)
    end
  else None.

Definition findPrev (sortedData : list RowItem) (s : option Qc) : option Qc :=
  match s with None => None | Some v => findPrevSort sortedData v end.

Definition findNext (sortedData : list RowItem) (s : option Qc) : option Qc :=
  match s with None => None | Some v => findNextSort sortedData v end.

Definition computeNewSorts (sortedData : list RowItem)
  (activeId overId : string) : list RowItem :=
  let activeIsGroup := startsWith activeId "group:" in
  let activeIsRow := startsWith activeId "row:" in
  match getSortForId sortedData activeId false,
        getSortForId sortedData overId false with
  | Some activeSort, Some overSortBase =>
      let isUp := Qcltb overSortBase activeSort in
      let isDown := Qcltb activeSort overSortBase in
      let overSort := getSortForId sortedData overId isDown in
      let newData := map clone sortedData in
      if activeIsRow && negb activeIsGroup then
        let activeKey := slice activeId 4 in
        if isUp then
          let down := overSort in
          let up := nullish (findPrev sortedData down) 0 in
          let newSort := (toNumber down - up) / Qc_of_Z 2 + up in
          updateRowSort newData activeKey newSort
        else if isDown then
          let up := overSort in
          let maybeNext := findNext sortedData up in
          let down := nullish maybeNext (toNumber up + Qc_of_Z 2) in
          let newSort := toNumber up + (down - toNumber up) / Qc_of_Z 2 in
          updateRowSort newData activeKey newSort
        else newData
      else if activeIsGroup then
        let gk := slice activeId 6 in
        let rows :=
          sortBySort (filter (fun r => String.eqb (groupKey r) gk) sortedData) in
        let rowNum := List.length rows in
        if isUp then
          let down := overSort in
          let up := nullish (findPrev sortedData down) 0 in
          let JQ := (toNumber down - up) / (Qc_of_nat rowNum + 1) in
          updateGroupSort newData gk up JQ
        else if isDown then
          let up := overSort in
          let maybeNext := findNext sortedData up in
          let down :=
            nullish maybeNext (toNumber up + Qc_of_nat rowNum + 1) in
          let JQ := (down - toNumber up) / (Qc_of_nat rowNum + 1) in
          updateGroupSort newData gk (toNumber up) JQ
        else newData
      else newData
  | _, _ => sortedData
  end.

(** ** Group-size recompute *)

(** [rows.map((r, idx) => ...)] *)
Fixpoint mapWithIndexFrom (idx : nat) (f : RowItem -> nat -> RowItem)
  (l : list RowItem) : list RowItem :=
  match l with
  | [] => []
  | r :: t => f r idx :: mapWithIndexFrom (S idx) f t
  end.

Definition recomputeGroupSizes (data : list RowItem) : list RowItem :=
  flat_map
    (fun g =>
       let size := List.length (snd g) in
       mapWithIndexFrom 0
         (fun r idx => setGroupSize r (if Nat.eqb idx 0 then size else 0%nat))
         (snd g))
    (buildGroups data).

(** ** Vocabulary of the properties *)

(** Order keys are strictly unique across the collection. *)
Definition uniqueSorts (data : list RowItem) : Prop :=
  NoDup (map sort data).

(** Row identifiers are unique (the data model's row identity). *)
Definition uniqueKeys (data : list RowItem) : Prop :=
  NoDup (map key data).

Definition positiveSorts (data : list RowItem) : Prop :=
  Forall (fun r => 0 < sort r) data.

(** The collection is in ascending order of its order keys. *)
Fixpoint sortedAscending (data : list RowItem) : Prop :=
  match data with
  | [] => True
  | r :: t => Forall (fun x => sort r <= sort x) t /\ sortedAscending t
  end.

(** Every member of group [g] has a key strictly below every member of
    group [h]. *)
Definition groupBelow (data : list RowItem) (g h : string) : Prop :=
  forall r s, In r data -> In s data ->
    groupKey r = g -> groupKey s = h -> sort r < sort s.

(** Group key ranges are pairwise non-interleaved. *)
Definition groupsContiguous (data : list RowItem) : Prop :=
  forall g h, g <> h -> groupBelow data g h \/ groupBelow data h g.

(** The members of group [g], in collection order. *)
Definition members (data : list RowItem) (g : string) : list RowItem :=
  filter (fun r => String.eqb (groupKey r) g) data.

(** No order key of the collection lies strictly between [up] and [down]. *)
Definition isGap (data : list RowItem) (up down : Qc) : Prop :=
  up < down /\ forall x, In x data -> sort x <= up \/ down <= sort x.

(** The rows of [old] and [new], matched position by position, compare the
    same way by old key and by new key. *)
Definition orderPreserved (old new : list RowItem) : Prop :=
  forall i j a b a' b',
    nth_error old i = Some a -> nth_error old j = Some b ->
    nth_error new i = Some a' -> nth_error new j = Some b' ->
    (sort a < sort b <-> sort a' < sort b').

(** A three-row collection that is not in ascending key order: group G
    holds the keys 2 and 1 in that order, group H the key 3. *)
Definition unsortedData : list RowItem :=
  [ mkRow "a" "G" (Some 2%nat) "G" "a" 1 (Qc_of_Z 2);
    mkRow "b" "G" None "G" "b" 1 (Qc_of_Z 1);
    mkRow "c" "H" (Some 1%nat) "H" "c" 1 (Qc_of_Z 3) ].

(** Every field of a row other than [groupSize]. *)
Definition withoutGroupSize (r : RowItem)
  : string * string * string * string * Z * Qc :=
  (key r, groupKey r, category r, name r, count r, sort r).

(** A row is directly involved in a move: it is the moved row, or a member
    of the moved group. *)
Definition directlyInvolved (activeId : string) (r : RowItem) : Prop :=
  activeId = rowId (key r) \/ activeId = groupId (groupKey r).

(** Boolean equality of rows and collections, for evaluation on concrete
    collections. *)
Definition optNatEqb (a b : option nat) : bool :=
  match a, b with
  | Some x, Some y => Nat.eqb x y
  | None, None => true
  | _, _ => false
  end.

Definition rowEqb (a b : RowItem) : bool :=
  String.eqb (key a) (key b) && String.eqb (groupKey a) (groupKey b)
  && optNatEqb (groupSize a) (groupSize b)
  && String.eqb (category a) (category b) && String.eqb (name a) (name b)
  && Z.eqb (count a) (count b) && Qc_eq_bool (sort a) (sort b).

Fixpoint rowsEqb (l1 l2 : list RowItem) : bool :=
  match l1, l2 with
  | [], [] => true
  | a :: t1, b :: t2 => rowEqb a b && rowsEqb t1 t2
  | _, _ => false
  end.

(** Boolean checks of the hypotheses, for evaluation on concrete
    collections. *)
Fixpoint distinctStrings (l : list string) : bool :=
  match l with
  | [] => true
  | x :: t => forallb (fun y => negb (String.eqb x y)) t && distinctStrings t
  end.

Fixpoint distinctNumbers (l : list Qc) : bool :=
  match l with
  | [] => true
  | x :: t => forallb (fun y => negb (Qc_eq_bool x y)) t && distinctNumbers t
  end.

Definition positiveSortsb (data : list RowItem) : bool :=
  forallb (fun r => Qcltb 0 (sort r)) data.

Fixpoint sortedAscendingb (data : list RowItem) : bool :=
  match data with
  | [] => true
  | r :: t => forallb (fun x => Qcleb (sort r) (sort x)) t && sortedAscendingb t
  end.

Definition groupBelowb (data : list RowItem) (g h : string) : bool :=
  forallb
    (fun r =>
       forallb
         (fun s =>
            negb (String.eqb (groupKey r) g && String.eqb (groupKey s) h)
            || Qcltb (sort r) (sort s))
         data)
    data.

Definition groupsContiguousb (data : list RowItem) : bool :=
  forallb
    (fun r =>
       forallb
         (fun s =>
            String.eqb (groupKey r) (groupKey s)
            || groupBelowb data (groupKey r) (groupKey s)
            || groupBelowb data (groupKey s) (groupKey r))
         data)
    data.

(** ** The rest of the component: derived views, state and handlers *)

(** [flattenAndResort]: the groups' rows, concatenated. *)
Definition flattenAndResort (groups : GroupMap) : list RowItem :=
  flat_map snd groups.

(** [[...dataSource].sort((a, b) => a.sort - b.sort)] *)
Definition sortedData (dataSource : list RowItem) : list RowItem :=
  sortBySort dataSource.

(** [sortableItems]: the group identifiers followed by the row identifiers. *)
Definition sortableItems (dataSource : list RowItem) : list string :=
  map (fun g => groupId (fst g)) (buildGroups (sortedData dataSource))
  ++ map (fun r => rowId (key r)) (sortedData dataSource).

(** [record.groupSize !== undefined] *)
Definition isGroupHeader (record : RowItem) : bool :=
  match groupSize record with Some _ => true | None => false end.

(** The identifier under which [DraggableRow] registers a record. *)
Definition sortableId (record : RowItem) : string :=
  if isGroupHeader record then groupId (groupKey record)
  else rowId (key record).

(** [rec.groupSize || 0], the row span of the two merged columns. *)
Definition rowSpan (rec : RowItem) : nat :=
  match groupSize rec with Some n => n | None => 0%nat end.

(** [s.replace(pat, "")]: the first occurrence of [pat] is removed. *)
Fixpoint removeFirst (pat s : string) : string :=
  if String.prefix pat s then slice s (String.length pat)
  else match s with
       | EmptyString => EmptyString
       | String c t => String c (removeFirst pat t)
       end.

(** [DraggableRow]: a record is drawn with opacity 0 while its group, or the
    record itself, is being dragged. *)
Definition isCurrentGroupDragging (active : option string) (record : RowItem)
  : bool :=
  match active with
  | None => false
  | Some a =>
      negb (String.eqb a "")
      && startsWith a "group:"
      && String.eqb (groupKey record) (removeFirst "group:" a)
  end.

Definition isCurrentRowDragging (active : option string) (record : RowItem)
  : bool :=
  match active with
  | None => false
  | Some a => String.eqb a (rowId (key record))
  end.

Definition isHidden (active : option string) (record : RowItem) : bool :=
  isCurrentGroupDragging active record || isCurrentRowDragging active record.

Inductive IndicatorType : Type := before | after.

Record Indicator : Type := mkIndicator {
  indicatorKey : string;
  indicatorType : IndicatorType
}.

(** The three state cells of the main component. *)
Record State : Type := mkState {
  dataSource : list RowItem;
  activeId : option string;
  indicatorPos : option Indicator
}.

Definition setActiveId (st : State) (a : option string) : State :=
  mkState (dataSource st) a (indicatorPos st).

Definition setIndicatorPos (st : State) (i : option Indicator) : State :=
  mkState (dataSource st) (activeId st) i.

Definition setDataSource (st : State) (d : list RowItem) : State :=
  mkState d (activeId st) (indicatorPos st).

Definition onDragStart (st : State) (active : string) : State :=
  setActiveId st (Some active).

(** [onDragMove], without its scrolling of the table element, which touches
    no state cell.  [over] is the identifier under the pointer, if any; an
    empty identifier counts as none. *)
Definition onDragMove (st : State) (over : option string) : State :=
  let overId :=
    match over with
    | Some id => if String.eqb id "" then None else Some id
    | None => None
    end in
  match overId with
  | None => setIndicatorPos st None
  | Some overId =>
      if startsWith overId "group:" then
        let gk := slice overId 6 in
        let rows :=
          sortBySort
            (filter (fun r => String.eqb (groupKey r) gk)
               (sortedData (dataSource st))) in
        match lastRow rows with
        | Some l => setIndicatorPos st (Some (mkIndicator (key l) after))
        | None => st
        end
      else
        setIndicatorPos st (Some (mkIndicator (removeFirst "row:" overId) before))
  end.

(** [rowClassName] *)
Definition rowClassName (st : State) (record : RowItem) : string :=
  match indicatorPos st with
  | Some i =>
      if String.eqb (indicatorKey i) (key record)
         && match indicatorType i with before => true | after => false end
      then "drop-indicator-row" else ""
  | None => ""
  end.

(** [onDragEnd]: [active] and [over] are the identifiers of the dragged and
    of the target element, when present. *)
Definition onDragEnd (st : State) (active over : option string) : State :=
  let st1 := setActiveId (setIndicatorPos st None) None in
  match active, over with
  | Some activeIdStr, Some overIdStr =>
      if String.eqb activeIdStr overIdStr then st1
      else
        let newData :=
          computeNewSorts (sortedData (dataSource st)) activeIdStr overIdStr in
        let dataWithSizes := recomputeGroupSizes newData in
        setDataSource st1 dataWithSizes
  | _, _ => st1
  end.

(** The maximal runs of consecutive rows with one group key, in collection
    order (a specification device: the grouping index of a collection whose
    groups are contiguous). *)
Fixpoint runs (data : list RowItem) : GroupMap :=
  match data with
  | [] => []
  | r :: t =>
      match runs t with
      | (g, rows) :: rest =>
          if String.eqb (groupKey r) g then (g, r :: rows) :: rest
          else (groupKey r, [r]) :: (g, rows) :: rest
      | [] => [(groupKey r, [r])]
      end
  end.

(** ** The sort calculation over binary64 numbers *)

Module Float64.

Record RowItem : Type := mkRow {
  key : string;
  groupKey : string;
  groupSize : option nat;
  category : string;
  name : string;
  count : Z;
  sort : float
}.

(** [{ ...r }] *)
Definition clone (r : RowItem) : RowItem :=
  mkRow (key r) (groupKey r) (groupSize r) (category r) (name r) (count r)
        (sort r).

(** [{ ...r, sort: s }] *)
Definition setSort (r : RowItem) (s : float) : RowItem :=
  mkRow (key r) (groupKey r) (groupSize r) (category r) (name r) (count r) s.

(** [a ?? d] on a nullable number. *)
Definition nullish (o : option float) (d : float) : float :=
  match o with Some v => v | None => d end.

(** A nullable number used as an operand of [-] or [+]: [null] becomes 0. *)
Definition toNumber (o : option float) : float :=
  match o with Some v => v | None => 0%float end.

(** An array length as a number (exact below 2^53). *)
Fixpoint ofNat (n : nat) : float :=
  match n with
  | O => 0%float
  | S k => PrimFloat.add (ofNat k) 1%float
  end.

Definition initialData : list RowItem :=
  [ mkRow "1-1" "group-A" (Some 3%nat) "A" "产品 A1" 10 1%float;
    mkRow "1-2" "group-A" None "A" "产品 A2" 20 2%float;
    mkRow "1-3" "group-A" None "A" "产品 A3" 30 3%float;
    mkRow "2-1" "group-B" (Some 2%nat) "B" "产品 B1" 5 4%float;
    mkRow "2-2" "group-B" None "B" "产品 B2" 15 5%float;
    mkRow "3-1" "group-C" (Some 1%nat) "C" "产品 C1" 40 6%float ].

(** [(a, b) => a.sort - b.sort] *)
Definition compareFn (a b : RowItem) : float :=
  PrimFloat.sub (sort a) (sort b).

(** [rows.sort(compareFn)]: a stable sort; an element moves behind another
    one only when the comparison is positive. *)
Fixpoint insertBySort (r : RowItem) (l : list RowItem) : list RowItem :=
  match l with
  | [] => [r]
  | x :: t => if PrimFloat.ltb 0%float (compareFn r x)
              then x :: insertBySort r t
              else r :: x :: t
  end.

Fixpoint sortBySort (l : list RowItem) : list RowItem :=
  match l with
  | [] => []
  | x :: t => insertBySort x (sortBySort t)
  end.

(** [arr[arr.length - 1]] *)
Fixpoint lastRow (l : list RowItem) : option RowItem :=
  match l with
  | [] => None
  | [x] => Some x
  | _ :: t => lastRow t
  end.

Definition findPrevSort (data : list RowItem) (s : float) : option float :=
  let arr := sortBySort (filter (fun i => PrimFloat.ltb (sort i) s) data) in
  match lastRow arr with
  | None => None
  | Some r => Some (sort r)
  end.

Definition findNextSort (data : list RowItem) (s : float) : option float :=
  let arr := sortBySort (filter (fun i => PrimFloat.ltb s (sort i)) data) in
  match arr with
  | [] => None
  | r :: _ => Some (sort r)
  end.

Definition updateRowSort (data : list RowItem) (rowKey : string)
  (newSort : float) : list RowItem :=
  map (fun r => if String.eqb (key r) rowKey then setSort r newSort else r) data.

(** [data.map(...)] with the counter [idx] threaded through the traversal;
    [idx++] adds 1 to the number [idx]. *)
Fixpoint updateGroupSortFrom (idx : float) (data : list RowItem)
  (gk : string) (up JQ : float) : list RowItem :=
  match data with
  | [] => []
  | r :: t =>
      if String.eqb (groupKey r) gk
      then setSort r (PrimFloat.add up (PrimFloat.mul JQ idx))
             :: updateGroupSortFrom (PrimFloat.add idx 1%float) t gk up JQ
      else r :: updateGroupSortFrom idx t gk up JQ
  end.

Definition updateGroupSort (data : list RowItem) (gk : string)
  (up JQ : float) : list RowItem :=
  updateGroupSortFrom 1%float data gk up JQ.

Definition getSortForId (sortedData : list RowItem) (id : string)
  (isTargetingEnd : bool) : option float :=
  if startsWith id "row:" then
    let k := slice id 4 in
    match find (fun x => String.eqb (key x) k) sortedData with
    | Some r => Some (sort r)
    | None => None
    end
  else if startsWith id "group:" then
    let gk := slice id 6 in
    let rows :=
      sortBySort (filter (fun x => String.eqb (groupKey x) gk) sortedData) in
    match rows with
    | [] => None
    | r0 :: _ =>
        if isTargetingEnd
        then match lastRow rows with Some r => Some (sort r) | None => None end
        else Some (sort r0)
    end
  else None.

Definition findPrev (sortedData : list RowItem) (s : option float)
  : option float :=
  match s with None => None | Some v => findPrevSort sortedData v end.

Definition findNext (sortedData : list RowItem) (s : option float)
  : option float :=
  match s with None => None | Some v => findNextSort sortedData v end.

Definition computeNewSorts (sortedData : list RowItem)
  (activeId overId : string) : list RowItem :=
  let activeIsGroup := startsWith activeId "group:" in
  let activeIsRow := startsWith activeId "row:" in
  match getSortForId sortedData activeId false,
        getSortForId sortedData overId false with
  | Some activeSort, Some overSortBase =>
      let isUp := PrimFloat.ltb overSortBase activeSort in
      let isDown := PrimFloat.ltb activeSort overSortBase in
      let overSort := getSortForId sortedData overId isDown in
      let newData := map clone sortedData in
      if activeIsRow && negb activeIsGroup then
        let activeKey := slice activeId 4 in
        if isUp then
          let down := overSort in
          let up := nullish (findPrev sortedData down) 0%float in
          let newSort :=
            PrimFloat.add
              (PrimFloat.div (PrimFloat.sub (toNumber down) up) 2%float) up in
          updateRowSort newData activeKey newSort
        else if isDown then
          let up := overSort in
          let maybeNext := findNext sortedData up in
          let down :=
            nullish maybeNext (PrimFloat.add (toNumber up) 2%float) in
          let newSort :=
            PrimFloat.add (toNumber up)
              (PrimFloat.div (PrimFloat.sub down (toNumber up)) 2%float) in
          updateRowSort newData activeKey newSort
        else newData
      else if activeIsGroup then
        let gk := slice activeId 6 in
        let rows :=
          sortBySort (filter (fun r => String.eqb (groupKey r) gk) sortedData) in
        let rowNum := ofNat (List.length rows) in
        if isUp then
          let down := overSort in
          let up := nullish (findPrev sortedData down) 0%float in
          let JQ :=
            PrimFloat.div (PrimFloat.sub (toNumber down) up)
              (PrimFloat.add rowNum 1%float) in
          updateGroupSort newData gk up JQ
        else if isDown then
          let up := overSort in
          let maybeNext := findNext sortedData up in
          let down :=
            nullish maybeNext
              (PrimFloat.add (PrimFloat.add (toNumber up) rowNum) 1%float) in
          let JQ :=
            PrimFloat.div (PrimFloat.sub down (toNumber up))
              (PrimFloat.add rowNum 1%float) in
          updateGroupSort newData gk (toNumber up) JQ
        else newData
      else newData
  | _, _ => sortedData
  end.

(** The hypotheses of the order-key properties, as checks on a concrete
    collection. *)
Fixpoint distinctSorts (l : list float) : bool :=
  match l with
  | [] => true
  | x :: t => forallb (fun y => negb (PrimFloat.eqb x y)) t && distinctSorts t
  end.

Definition positiveSorts (data : list RowItem) : bool :=
  forallb (fun r => PrimFloat.ltb 0%float (sort r)) data.

Fixpoint sortedAscending (data : list RowItem) : bool :=
  match data with
  | [] => true
  | r :: t =>
      forallb (fun x => PrimFloat.leb (sort r) (sort x)) t && sortedAscending t
  end.

(** Every member of group [g] has a key strictly below every member of
    group [h]. *)
Definition groupBelow (data : list RowItem) (g h : string) : bool :=
  forallb
    (fun r =>
       forallb
         (fun s =>
            negb (String.eqb (groupKey r) g && String.eqb (groupKey s) h)
            || PrimFloat.ltb (sort r) (sort s))
         data)
    data.

(** Group key ranges are pairwise non-interleaved. *)
Definition groupsContiguous (data : list RowItem) : bool :=
  forallb
    (fun r =>
       forallb
         (fun s =>
            String.eqb (groupKey r) (groupKey s)
            || groupBelow data (groupKey r) (groupKey s)
            || groupBelow data (groupKey s) (groupKey r))
         data)
    data.

(** Three rows around 2^53, where binary64 numbers are 2 apart. *)
Definition rowsNear2p53 : list RowItem :=
  [ mkRow "a" "G" (Some 1%nat) "G" "a" 1 1%float;
    mkRow "b" "H" (Some 1%nat) "H" "b" 1 0x1p53%float;
    mkRow "c" "K" (Some 1%nat) "K" "c" 1 0x1.0000000000001p53%float ].

(** A group of two below a row at 2^53. *)
Definition pairBelow2p53 : list RowItem :=
  [ mkRow "a" "G" (Some 2%nat) "G" "a" 1 1%float;
    mkRow "a2" "G" None "G" "a2" 1 2%float;
    mkRow "b" "H" (Some 1%nat) "H" "b" 1 0x1p53%float ].

(** Three rows of one group with the keys 1, 2 and 3. *)
Definition oneTwoThree : list RowItem :=
  [ mkRow "a" "G" (Some 3%nat) "G" "a" 1 1%float;
    mkRow "b" "G" None "G" "b" 1 2%float;
    mkRow "c" "G" None "G" "c" 1 3%float ].

(** Row c moved up onto row b, then row b moved up onto row c. *)
Definition swapTwice (data : list RowItem) : list RowItem :=
  computeNewSorts (computeNewSorts data (rowId "c") (rowId "b"))
    (rowId "b") (rowId "c").

End Float64.

(** A collection in which two rows carry the same identifier. *)
Definition duplicateKeyData : list RowItem :=
  [ mkRow "k" "G" (Some 2%nat) "G" "k1" 1 (Qc_of_Z 1);
    mkRow "k" "G" None "G" "k2" 1 (Qc_of_Z 2);
    mkRow "z" "H" (Some 1%nat) "H" "z" 1 (Qc_of_Z 5) ].

(** * Properties *)

(** ** Rational arithmetic *)

Lemma this_Q2Qc q : (this (Q2Qc q) == q)%Q.
Proof. simpl. apply Qred_correct. Qed.

Ltac qc2q :=
  unfold Qclt, Qcle, Qcdiv, Qcminus, Qcplus, Qcmult, Qcopp, Qcinv,
    Qc_of_nat, Qc_of_Z in *;
  repeat match goal with
  | H : context [this (Q2Qc ?q)] |- _ => rewrite (this_Q2Qc q) in H
  | |- context [this (Q2Qc ?q)] => rewrite (this_Q2Qc q)
  end.

Lemma Qcltb_lt (x y : Qc) : Qcltb x y = true <-> x < y.
Proof.
  unfold Qcltb. rewrite Qclt_alt. destruct (x ?= y); split; congruence.
Qed.

Lemma Qcltb_nlt (x y : Qc) : Qcltb x y = false <-> y <= x.
Proof.
  split; intros H.
  - apply Qcnot_lt_le. intros Hlt. apply Qcltb_lt in Hlt. congruence.
  - destruct (Qcltb x y) eqn:E; [|reflexivity].
    apply Qcltb_lt in E. exfalso. exact (Qcle_not_lt _ _ H E).
Qed.

Lemma Qcleb_le (x y : Qc) : Qcleb x y = true <-> x <= y.
Proof.
  unfold Qcleb. rewrite Qcle_alt. destruct (x ?= y); split; congruence.
Qed.

Lemma Qcleb_nle (x y : Qc) : Qcleb x y = false <-> y < x.
Proof.
  split; intros H.
  - apply Qcnot_le_lt. intros Hle. apply Qcleb_le in Hle. congruence.
  - destruct (Qcleb x y) eqn:E; [|reflexivity].
    apply Qcleb_le in E. exfalso. exact (Qclt_not_le _ _ H E).
Qed.

Lemma Qclt_irrefl (x : Qc) : ~ x < x.
Proof. intros H. exact (Qclt_not_eq _ _ H eq_refl). Qed.

Lemma Qclt_asym (x y : Qc) : x < y -> ~ y < x.
Proof. intros H1 H2. exact (Qclt_irrefl x (Qclt_trans _ _ _ H1 H2)). Qed.

Lemma Qcltb_both_false (x y : Qc) :
  Qcltb x y = false -> Qcltb y x = false -> x = y.
Proof.
  intros H1 H2. apply Qcltb_nlt in H1, H2. apply Qcle_antisym; assumption.
Qed.

Lemma Qcltb_irrefl (x : Qc) : Qcltb x x = false.
Proof. apply Qcltb_nlt, Qcle_refl. Qed.

Lemma Qc_of_nat_lt (i j : nat) : (i < j)%nat -> Qc_of_nat i < Qc_of_nat j.
Proof. intros H. qc2q. rewrite <- Zlt_Qlt. lia. Qed.

Lemma Qc_of_nat_S (n : nat) : Qc_of_nat (S n) = Qc_of_nat n + 1.
Proof.
  apply Qc_is_canon. qc2q. rewrite Nat2Z.inj_succ. unfold Z.succ.
  rewrite inject_Z_plus. reflexivity.
Qed.

Lemma Qc_of_nat_0 : Qc_of_nat 0 = 0.
Proof. apply Qc_is_canon. reflexivity. Qed.

Lemma Qcplus_lt_l (a x y : Qc) : x < y -> a + x < a + y.
Proof. intros H. qc2q. lra. Qed.

Lemma Qc_of_nat_S_pos (n : nat) : 0 < Qc_of_nat n + 1.
Proof.
  rewrite <- Qc_of_nat_S, <- Qc_of_nat_0. apply Qc_of_nat_lt. lia.
Qed.

Lemma Qc_of_nat_S_neq0 (n : nat) : Qc_of_nat n + 1 <> 0.
Proof.
  intros E. pose proof (Qc_of_nat_S_pos n) as H. rewrite E in H.
  exact (Qclt_irrefl _ H).
Qed.

Lemma step_mult (a b : Qc) (n : nat) :
  (b - a) / (Qc_of_nat n + 1) * (Qc_of_nat n + 1) = b - a.
Proof. field. apply Qc_of_nat_S_neq0. Qed.

Lemma step_pos (a b : Qc) (n : nat) :
  a < b -> 0 < (b - a) / (Qc_of_nat n + 1).
Proof.
  intros H. apply Qcnot_le_lt. intros Hle.
  apply (Qcmult_le_compat_r _ _ (Qc_of_nat n + 1)) in Hle.
  2: apply Qclt_le_weak, Qc_of_nat_S_pos.
  rewrite step_mult, Qcmult_0_l in Hle. qc2q. lra.
Qed.

Lemma step_above (a b : Qc) (n i : nat) :
  a < b -> (1 <= i)%nat -> a < a + (b - a) / (Qc_of_nat n + 1) * Qc_of_nat i.
Proof.
  intros H Hi. pose proof (step_pos a b n H) as Hp.
  assert (Hi0 : 0 < Qc_of_nat i)
    by (rewrite <- Qc_of_nat_0; apply Qc_of_nat_lt; lia).
  pose proof (Qcmult_lt_compat_r _ _ _ Hi0 Hp) as Hm.
  rewrite Qcmult_0_l in Hm.
  set (s := (b - a) / (Qc_of_nat n + 1) * Qc_of_nat i) in *.
  clearbody s. qc2q. lra.
Qed.

Lemma step_mono (a b : Qc) (n i j : nat) :
  a < b -> (i < j)%nat ->
  a + (b - a) / (Qc_of_nat n + 1) * Qc_of_nat i
  < a + (b - a) / (Qc_of_nat n + 1) * Qc_of_nat j.
Proof.
  intros H Hij. apply Qcplus_lt_l.
  rewrite !(Qcmult_comm ((b - a) / (Qc_of_nat n + 1))).
  apply Qcmult_lt_compat_r.
  - apply step_pos, H.
  - apply Qc_of_nat_lt, Hij.
Qed.

Lemma step_below (a b : Qc) (n i : nat) :
  a < b -> (i <= n)%nat -> a + (b - a) / (Qc_of_nat n + 1) * Qc_of_nat i < b.
Proof.
  intros H Hi.
  assert (E : b = a + (b - a) / (Qc_of_nat n + 1) * Qc_of_nat (S n)).
  { rewrite Qc_of_nat_S, step_mult. ring. }
  eapply Qclt_le_trans;
    [apply (step_mono a b n i (S n)); [exact H | lia] |].
  rewrite <- E. apply Qcle_refl.
Qed.

Lemma step_formula (a b : Qc) (n i : nat) :
  a + (b - a) / (Qc_of_nat n + 1) * Qc_of_nat i
  = a + Qc_of_nat i * (b - a) / (Qc_of_nat n + 1).
Proof. field. apply Qc_of_nat_S_neq0. Qed.

Lemma mid_between (a b : Qc) :
  a < b -> a < a + (b - a) / Qc_of_Z 2 /\ a + (b - a) / Qc_of_Z 2 < b.
Proof.
  intros H. qc2q.
  assert (E : (/ inject_Z 2 == 1 # 2)%Q) by reflexivity.
  rewrite E. split; lra.
Qed.

Lemma mid_comm (a b : Qc) :
  (b - a) / Qc_of_Z 2 + a = a + (b - a) / Qc_of_Z 2.
Proof. ring. Qed.

Lemma plus2_above (a : Qc) : a < a + Qc_of_Z 2.
Proof.
  qc2q. assert (E : (inject_Z 2 == 2)%Q) by reflexivity. rewrite E. lra.
Qed.

Lemma plusn1_above (a : Qc) (n : nat) : a < a + Qc_of_nat n + 1.
Proof.
  pose proof (Qc_of_nat_S_pos n) as H. rewrite <- Qcplus_assoc.
  set (s := Qc_of_nat n + 1) in *. clearbody s. qc2q. lra.
Qed.

(** ** Strings and identifiers *)

Lemma substring_all (s : string) : substring 0 (String.length s) s = s.
Proof. induction s; simpl; [reflexivity | now rewrite IHs]. Qed.

Lemma prefix_slice (p s : string) :
  String.prefix p s = true -> s = String.append p (slice s (String.length p)).
Proof.
  unfold slice. revert s. induction p as [|c p IH]; intros s H; simpl in *.
  - rewrite Nat.sub_0_r, substring_all. reflexivity.
  - destruct s as [|d s]; simpl in H; [discriminate|].
    destruct (Ascii.ascii_dec c d) as [->|]; [|discriminate].
    simpl. f_equal. apply IH, H.
Qed.

Lemma prefix_app (p s : string) : String.prefix p (String.append p s) = true.
Proof.
  induction p as [|c p IH]; simpl.
  - destruct s; reflexivity.
  - destruct (Ascii.ascii_dec c c); [exact IH | congruence].
Qed.

Lemma slice_app (p s : string) :
  slice (String.append p s) (String.length p) = s.
Proof.
  unfold slice. induction p as [|c p IH]; simpl.
  - rewrite Nat.sub_0_r. apply substring_all.
  - exact IH.
Qed.

Lemma startsWith_row (k : string) : startsWith (rowId k) "row:" = true.
Proof. apply prefix_app. Qed.

Lemma startsWith_group (g : string) :
  startsWith (groupId g) "group:" = true.
Proof. apply prefix_app. Qed.

Lemma startsWith_row_group (k : string) :
  startsWith (rowId k) "group:" = false.
Proof. reflexivity. Qed.

Lemma startsWith_group_row (g : string) :
  startsWith (groupId g) "row:" = false.
Proof. reflexivity. Qed.

Lemma slice_row (k : string) : slice (rowId k) 4 = k.
Proof. apply (slice_app "row:"). Qed.

Lemma slice_group (g : string) : slice (groupId g) 6 = g.
Proof. apply (slice_app "group:"). Qed.

(** ** Rows *)

Lemma clone_id (r : RowItem) : clone r = r.
Proof. destruct r; reflexivity. Qed.

Lemma map_clone (l : list RowItem) : map clone l = l.
Proof.
  induction l as [|r t IH]; simpl; [reflexivity|].
  now rewrite clone_id, IH.
Qed.

Lemma optNatEqb_eq (a b : option nat) : optNatEqb a b = true -> a = b.
Proof.
  destruct a, b; simpl; try discriminate; try reflexivity.
  intros H. apply Nat.eqb_eq in H. now subst.
Qed.

Lemma rowEqb_eq (a b : RowItem) : rowEqb a b = true -> a = b.
Proof.
  unfold rowEqb. intros H.
  repeat (apply andb_prop in H; destruct H as [H ?]).
  destruct a, b; simpl in *.
  repeat match goal with
  | E : String.eqb _ _ = true |- _ => apply String.eqb_eq in E
  | E : Z.eqb _ _ = true |- _ => apply Z.eqb_eq in E
  | E : optNatEqb _ _ = true |- _ => apply optNatEqb_eq in E
  | E : Qc_eq_bool _ _ = true |- _ => apply Qc_eq_bool_correct in E
  end.
  congruence.
Qed.

Lemma rowsEqb_eq (l1 l2 : list RowItem) : rowsEqb l1 l2 = true -> l1 = l2.
Proof.
  revert l2. induction l1 as [|a t IH]; intros [|b t2] H; simpl in H;
    try discriminate; [reflexivity|].
  apply andb_prop in H. destruct H as [H1 H2].
  f_equal; [apply rowEqb_eq, H1 | apply IH, H2].
Qed.

Lemma setSort_setSort (r : RowItem) (s t : Qc) :
  setSort (setSort r s) t = setSort r t.
Proof. reflexivity. Qed.

Lemma setSort_same (r : RowItem) : setSort r (sort r) = r.
Proof. destruct r; reflexivity. Qed.

(** ** Frame lemmas for the two update helpers *)

Lemma updateRowSort_nth (data : list RowItem) (k : string) (v : Qc) i r :
  nth_error data i = Some r ->
  nth_error (updateRowSort data k v) i
  = Some (if String.eqb (key r) k then setSort r v else r).
Proof.
  intros H. unfold updateRowSort. rewrite nth_error_map, H. reflexivity.
Qed.

Lemma updateRowSort_erase (data : list RowItem) (k : string) (v : Qc) :
  map (fun r => setSort r 0) (updateRowSort data k v)
  = map (fun r => setSort r 0) data.
Proof.
  unfold updateRowSort. rewrite map_map. apply map_ext. intros r.
  destruct (String.eqb (key r) k); reflexivity.
Qed.

Lemma updateGroupSortFrom_nth (data : list RowItem) gk up JQ :
  forall idx i r,
  nth_error data i = Some r ->
  nth_error (updateGroupSortFrom idx data gk up JQ) i
  = Some (if String.eqb (groupKey r) gk
          then setSort r
                 (up + JQ * Qc_of_nat
                             (idx + List.length (members (firstn i data) gk)))
          else r).
Proof.
  induction data as [|x t IH]; intros idx i r H.
  - destruct i; discriminate.
  - destruct i as [|i]; simpl in H.
    + injection H as ->. simpl.
      destruct (String.eqb (groupKey r) gk); simpl; [|reflexivity].
      unfold members. simpl. now rewrite Nat.add_0_r.
    + simpl. unfold members. simpl.
      destruct (String.eqb (groupKey x) gk) eqn:E; simpl.
      * rewrite (IH (S idx) i r H). unfold members.
        destruct (String.eqb (groupKey r) gk); [|reflexivity].
        now rewrite Nat.add_succ_comm.
      * rewrite (IH idx i r H). reflexivity.
Qed.

Lemma updateGroupSortFrom_erase (data : list RowItem) gk up JQ :
  forall idx,
  map (fun r => setSort r 0) (updateGroupSortFrom idx data gk up JQ)
  = map (fun r => setSort r 0) data.
Proof.
  induction data as [|x t IH]; intros idx; simpl; [reflexivity|].
  destruct (String.eqb (groupKey x) gk); simpl; now rewrite IH.
Qed.

(** ** The shape of a result of [computeNewSorts] *)

Lemma computeNewSorts_shape (data : list RowItem) (a o : string) :
  computeNewSorts data a o = data
  \/ (startsWith a "row:" = true
      /\ exists v, computeNewSorts data a o = updateRowSort data (slice a 4) v)
  \/ (startsWith a "group:" = true
      /\ exists up JQ,
           computeNewSorts data a o = updateGroupSort data (slice a 6) up JQ).
Proof.
  unfold computeNewSorts.
  destruct (getSortForId data a false) as [sa|]; [|now left].
  destruct (getSortForId data o false) as [so|]; [|now left].
  rewrite map_clone.
  destruct (startsWith a "row:") eqn:Er, (startsWith a "group:") eqn:Eg;
    simpl; try (now left);
    destruct (Qcltb so sa); try (right; eauto; fail);
    destruct (Qcltb sa so); try (right; eauto; fail); now left.
Qed.

Lemma computeNewSorts_erase (data : list RowItem) (a o : string) :
  map (fun r => setSort r 0) (computeNewSorts data a o)
  = map (fun r => setSort r 0) data.
Proof.
  destruct (computeNewSorts_shape data a o)
    as [E | [[_ [v E]] | [_ [up [JQ E]]]]]; rewrite E.
  - reflexivity.
  - apply updateRowSort_erase.
  - apply updateGroupSortFrom_erase.
Qed.

Lemma erase_fields (l1 l2 : list RowItem) :
  map (fun r => setSort r 0) l1 = map (fun r => setSort r 0) l2 ->
  List.length l1 = List.length l2
  /\ map key l1 = map key l2
  /\ map groupKey l1 = map groupKey l2
  /\ map groupSize l1 = map groupSize l2
  /\ map category l1 = map category l2
  /\ map name l1 = map name l2
  /\ map count l1 = map count l2.
Proof.
  intros H.
  assert (P : forall (B : Type) (f : RowItem -> B),
             (forall r, f (setSort r 0) = f r) -> map f l1 = map f l2).
  { intros B f Hf.
    rewrite <- (map_ext (fun r => f (setSort r 0)) f Hf l1).
    rewrite <- (map_ext (fun r => f (setSort r 0)) f Hf l2).
    rewrite <- !(map_map (fun r => setSort r 0) f). now rewrite H. }
  split.
  - rewrite <- (length_map (fun r => setSort r 0) l1), H. apply length_map.
  - repeat split; apply P; reflexivity.
Qed.

(** C10. The result of [computeNewSorts] has the same rows as its input, in
    the same positions: the same length and the same row keys, and every
    field other than [sort] is unchanged; in particular the [groupKey] of a
    moved row is never reassigned. *)
Theorem computeNewSorts_changes_only_sort (data : list RowItem) (a o : string) :
  map (fun r => setSort r 0) (computeNewSorts data a o)
  = map (fun r => setSort r 0) data
  /\ List.length (computeNewSorts data a o) = List.length data
  /\ map key (computeNewSorts data a o) = map key data
  /\ map groupKey (computeNewSorts data a o) = map groupKey data
  /\ map groupSize (computeNewSorts data a o) = map groupSize data
  /\ map category (computeNewSorts data a o) = map category data
  /\ map name (computeNewSorts data a o) = map name data
  /\ map count (computeNewSorts data a o) = map count data.
Proof.
  split; [apply computeNewSorts_erase|].
  apply erase_fields, computeNewSorts_erase.
Qed.

(** C9. The result of [computeNewSorts] differs from its input only in the
    [sort] field of the rows directly involved (the moved row, or the
    members of the moved group): position by position, a result row agrees
    with the input row on every field but [sort], and a row that is not
    directly involved is exactly the input row. *)
Theorem computeNewSorts_frame (data : list RowItem) (a o : string) :
  List.length (computeNewSorts data a o) = List.length data
  /\ forall i r, nth_error data i = Some r ->
       exists r', nth_error (computeNewSorts data a o) i = Some r'
                  /\ r' = setSort r (sort r')
                  /\ (~ directlyInvolved a r -> r' = r).
Proof.
  split.
  { apply (erase_fields _ _ (computeNewSorts_erase data a o)). }
  intros i r H.
  destruct (computeNewSorts_shape data a o)
    as [E | [[Ha [v E]] | [Ha [up [JQ E]]]]]; rewrite E.
  - exists r. rewrite setSort_same. auto.
  - rewrite (updateRowSort_nth _ _ _ _ _ H).
    destruct (String.eqb (key r) (slice a 4)) eqn:Ek.
    + eexists; split; [reflexivity|]. split; [reflexivity|].
      intros Hn. exfalso. apply Hn. left.
      apply String.eqb_eq in Ek. rewrite Ek.
      apply (prefix_slice "row:" a Ha).
    + exists r. rewrite setSort_same. auto.
  - unfold updateGroupSort. rewrite (updateGroupSortFrom_nth _ _ _ _ _ _ _ H).
    destruct (String.eqb (groupKey r) (slice a 6)) eqn:Ek.
    + eexists; split; [reflexivity|]. split; [reflexivity|].
      intros Hn. exfalso. apply Hn. right.
      apply String.eqb_eq in Ek. rewrite Ek.
      apply (prefix_slice "group:" a Ha).
    + exists r. rewrite setSort_same. auto.
Qed.

(** ** No-op cases *)

Lemma computeNewSorts_unresolved (data : list RowItem) (a o : string) :
  getSortForId data a false = None \/ getSortForId data o false = None ->
  computeNewSorts data a o = data.
Proof.
  intros H. unfold computeNewSorts.
  destruct (getSortForId data a false) as [sa|]; [|reflexivity].
  destruct (getSortForId data o false) as [so|]; [|reflexivity].
  destruct H; discriminate.
Qed.

Lemma computeNewSorts_same_key (data : list RowItem) (a o : string) :
  getSortForId data a false = getSortForId data o false ->
  computeNewSorts data a o = data.
Proof.
  intros H. unfold computeNewSorts. rewrite <- H.
  destruct (getSortForId data a false) as [sa|]; [|reflexivity].
  rewrite Qcltb_irrefl, map_clone.
  destruct (startsWith a "row:" && negb (startsWith a "group:"));
    [reflexivity|].
  destruct (startsWith a "group:"); reflexivity.
Qed.

(** C7. [computeNewSorts] returns its input unchanged whenever the active or
    the over identifier does not resolve to a row or a non-empty group, or
    the two representative keys are equal; in particular when both
    identifiers are the same. *)
Theorem computeNewSorts_noop (data : list RowItem) (a o : string) :
  getSortForId data a false = None
  \/ getSortForId data o false = None
  \/ getSortForId data a false = getSortForId data o false
  \/ a = o ->
  computeNewSorts data a o = data.
Proof.
  intros [H | [H | [H | H]]].
  - apply computeNewSorts_unresolved. now left.
  - apply computeNewSorts_unresolved. now right.
  - apply computeNewSorts_same_key, H.
  - apply computeNewSorts_same_key. now subst.
Qed.

Lemma computeNewSorts_noop_witness :
  computeNewSorts initialData (rowId "1-2") (rowId "1-2") = initialData
  /\ computeNewSorts initialData (rowId "9-9") (rowId "1-1") = initialData
  /\ computeNewSorts initialData (groupId "group-A") (rowId "1-1")
     = initialData.
Proof.
  split; [|split].
  - apply (computeNewSorts_noop initialData (rowId "1-2") (rowId "1-2")).
    right; right; right; reflexivity.
  - apply (computeNewSorts_noop initialData (rowId "9-9") (rowId "1-1")).
    left; reflexivity.
  - apply (computeNewSorts_noop initialData (groupId "group-A") (rowId "1-1")).
    right; right; left; reflexivity.
Defined.

(** ** The two scenarios on the seed collection *)

(** In exact arithmetic, moving group-B onto group-A on the seed collection
    (an up-move with no predecessor of key 1, hence lower bound 0) gives
    group-B's two members the rationals 1/3 and 2/3. *)
Lemma seed_move_groupB_before_groupA_exact :
  computeNewSorts initialData (groupId "group-B") (groupId "group-A")
  = [ mkRow "1-1" "group-A" (Some 3%nat) "A" "产品 A1" 10 (Qc_of_Z 1);
      mkRow "1-2" "group-A" None "A" "产品 A2" 20 (Qc_of_Z 2);
      mkRow "1-3" "group-A" None "A" "产品 A3" 30 (Qc_of_Z 3);
      mkRow "2-1" "group-B" (Some 2%nat) "B" "产品 B1" 5 (Q2Qc (1 # 3));
      mkRow "2-2" "group-B" None "B" "产品 B2" 15 (Q2Qc (2 # 3));
      mkRow "3-1" "group-C" (Some 1%nat) "C" "产品 C1" 40 (Qc_of_Z 6) ]
  /\ getSortForId initialData (groupId "group-A") false = Some (Qc_of_Z 1)
  /\ findPrevSort initialData (Qc_of_Z 1) = None.
Proof.
  split; [|split].
  - apply rowsEqb_eq. vm_compute. reflexivity.
  - reflexivity.
  - reflexivity.
Qed.

Lemma seed_row_move_value :
  computeNewSorts initialData (rowId "1-2") (rowId "2-1")
  = [ mkRow "1-1" "group-A" (Some 3%nat) "A" "产品 A1" 10 (Qc_of_Z 1);
      mkRow "1-2" "group-A" None "A" "产品 A2" 20 (Q2Qc (9 # 2));
      mkRow "1-3" "group-A" None "A" "产品 A3" 30 (Qc_of_Z 3);
      mkRow "2-1" "group-B" (Some 2%nat) "B" "产品 B1" 5 (Qc_of_Z 4);
      mkRow "2-2" "group-B" None "B" "产品 B2" 15 (Qc_of_Z 5);
      mkRow "3-1" "group-C" (Some 1%nat) "C" "产品 C1" 40 (Qc_of_Z 6) ].
Proof. apply rowsEqb_eq. vm_compute. reflexivity. Qed.

(** C3, as amended. On the seed collection, moving the row with key 2 onto
    the row with key 4 gives the moved row the order key 9/2, strictly
    between 4 and 5; every field of the moved row other than [sort],
    including its [groupKey] (still group-A), and every other row are
    unchanged. *)
Theorem seed_move_row2_after_row4 :
  computeNewSorts initialData (rowId "1-2") (rowId "2-1")
  = [ mkRow "1-1" "group-A" (Some 3%nat) "A" "产品 A1" 10 (Qc_of_Z 1);
      mkRow "1-2" "group-A" None "A" "产品 A2" 20 (Q2Qc (9 # 2));
      mkRow "1-3" "group-A" None "A" "产品 A3" 30 (Qc_of_Z 3);
      mkRow "2-1" "group-B" (Some 2%nat) "B" "产品 B1" 5 (Qc_of_Z 4);
      mkRow "2-2" "group-B" None "B" "产品 B2" 15 (Qc_of_Z 5);
      mkRow "3-1" "group-C" (Some 1%nat) "C" "产品 C1" 40 (Qc_of_Z 6) ]
  /\ Qc_of_Z 4 < Q2Qc (9 # 2) < Qc_of_Z 5.
Proof.
  split.
  - exact seed_row_move_value.
  - split; reflexivity.
Qed.

(** C3, as stated, fails: the moved row keeps its own group; it is not
    reassigned to the group of the target row. *)
Lemma seed_move_row2_after_row4_groupKey_kept :
  ~ (exists r t,
       In r (computeNewSorts initialData (rowId "1-2") (rowId "2-1"))
       /\ In t initialData
       /\ key r = "1-2" /\ key t = "2-1" /\ groupKey r = groupKey t).
Proof.
  intros (r & t & Hr & Ht & Kr & Kt & G).
  rewrite seed_row_move_value in Hr.
  simpl in Hr, Ht.
  repeat (destruct Hr as [<- | Hr]; try discriminate Kr);
    try contradiction.
  repeat (destruct Ht as [<- | Ht]; try discriminate Kt);
    try contradiction.
  discriminate G.
Qed.

(** ** Sorting *)

Lemma insertBySort_perm (r : RowItem) (l : list RowItem) :
  Permutation (r :: l) (insertBySort r l).
Proof.
  induction l as [|x t IH]; simpl; [apply Permutation_refl|].
  destruct (Qcleb (sort r) (sort x)); [apply Permutation_refl|].
  eapply perm_trans; [apply perm_swap|]. now apply perm_skip.
Qed.

Lemma sortBySort_perm (l : list RowItem) : Permutation l (sortBySort l).
Proof.
  induction l as [|x t IH]; simpl; [constructor|].
  eapply perm_trans; [apply perm_skip, IH | apply insertBySort_perm].
Qed.

Lemma sortBySort_In (l : list RowItem) (x : RowItem) :
  In x (sortBySort l) <-> In x l.
Proof.
  split; apply Permutation_in;
    [apply Permutation_sym|]; apply sortBySort_perm.
Qed.

Lemma sortBySort_length (l : list RowItem) :
  List.length (sortBySort l) = List.length l.
Proof. symmetry. apply Permutation_length, sortBySort_perm. Qed.

Lemma insertBySort_sorted (r : RowItem) (l : list RowItem) :
  sortedAscending l -> sortedAscending (insertBySort r l).
Proof.
  induction l as [|x t IH]; simpl; intros H.
  - split; [constructor | exact I].
  - destruct H as [Hx Ht].
    destruct (Qcleb (sort r) (sort x)) eqn:E.
    + apply Qcleb_le in E. simpl. split; [|split; assumption].
      constructor; [exact E|].
      eapply Forall_impl; [|exact Hx]. intros y Hy.
      eapply Qcle_trans; eassumption.
    + apply Qcleb_nle in E. simpl. split; [|apply IH, Ht].
      apply Forall_forall. intros y Hy.
      apply (Permutation_in _ (Permutation_sym (insertBySort_perm r t))) in Hy.
      destruct Hy as [<- | Hy]; [apply Qclt_le_weak, E|].
      rewrite Forall_forall in Hx. apply Hx, Hy.
Qed.

Lemma sortBySort_sorted (l : list RowItem) : sortedAscending (sortBySort l).
Proof.
  induction l as [|x t IH]; simpl; [exact I|].
  apply insertBySort_sorted, IH.
Qed.

Lemma sortBySort_head (l t : list RowItem) (r : RowItem) :
  sortBySort l = r :: t ->
  In r l /\ forall x, In x l -> sort r <= sort x.
Proof.
  intros E. split.
  - apply sortBySort_In. rewrite E. now left.
  - intros x Hx. apply sortBySort_In in Hx.
    pose proof (sortBySort_sorted l) as S. rewrite E in S, Hx.
    destruct S as [S _]. destruct Hx as [<- | Hx]; [apply Qcle_refl|].
    rewrite Forall_forall in S. apply S, Hx.
Qed.

Lemma lastRow_In (l : list RowItem) (r : RowItem) :
  lastRow l = Some r -> In r l.
Proof.
  induction l as [|x t IH]; simpl; [discriminate|].
  destruct t as [|y t']; intros H.
  - injection H as ->. now left.
  - right. apply IH, H.
Qed.

Lemma lastRow_None (l : list RowItem) : lastRow l = None -> l = [].
Proof.
  induction l as [|x t IH]; simpl; [reflexivity|].
  destruct t as [|y t']; intros H; [discriminate|].
  specialize (IH H). discriminate.
Qed.

Lemma lastRow_max (l : list RowItem) (r : RowItem) :
  sortedAscending l -> lastRow l = Some r ->
  forall x, In x l -> sort x <= sort r.
Proof.
  induction l as [|y t IH]; [discriminate|].
  intros [Hy Ht] H x Hx. destruct t as [|z t'].
  - injection H as <-. destruct Hx as [<- | []]. apply Qcle_refl.
  - change (lastRow (z :: t') = Some r) in H.
    destruct Hx as [<- | Hx]; [|now apply IH].
    rewrite Forall_forall in Hy. apply Hy, lastRow_In, H.
Qed.

Lemma sortBySort_last (l : list RowItem) (r : RowItem) :
  lastRow (sortBySort l) = Some r ->
  In r l /\ forall x, In x l -> sort x <= sort r.
Proof.
  intros H. split.
  - apply sortBySort_In, lastRow_In, H.
  - intros x Hx. apply (lastRow_max (sortBySort l) r).
    + apply sortBySort_sorted.
    + exact H.
    + apply sortBySort_In, Hx.
Qed.

Lemma sortBySort_nil (l : list RowItem) : sortBySort l = [] -> l = [].
Proof.
  intros E. apply Permutation_nil. rewrite <- E.
  apply Permutation_sym, sortBySort_perm.
Qed.

(** ** Previous and next order key *)

Lemma findPrevSort_Some (data : list RowItem) (s p : Qc) :
  findPrevSort data s = Some p ->
  (exists r, In r data /\ sort r = p)
  /\ p < s
  /\ forall x, In x data -> sort x < s -> sort x <= p.
Proof.
  unfold findPrevSort.
  destruct (lastRow _) as [r|] eqn:E; [|discriminate].
  intros H. injection H as <-.
  apply sortBySort_last in E. destruct E as [Hin Hmax].
  apply filter_In in Hin. destruct Hin as [Hin Hlt].
  apply Qcltb_lt in Hlt. split; [eauto|]. split; [exact Hlt|].
  intros x Hx Hxs. apply Hmax, filter_In. split; [exact Hx|].
  now apply Qcltb_lt.
Qed.

Lemma findPrevSort_None (data : list RowItem) (s : Qc) :
  findPrevSort data s = None ->
  forall x, In x data -> s <= sort x.
Proof.
  unfold findPrevSort.
  destruct (lastRow _) as [r|] eqn:E; [discriminate|].
  intros _ x Hx. apply lastRow_None, sortBySort_nil in E.
  apply Qcnot_lt_le. intros Hlt.
  assert (Hin : In x (filter (fun i => Qcltb (sort i) s) data)).
  { apply filter_In. split; [exact Hx | now apply Qcltb_lt]. }
  rewrite E in Hin. exact Hin.
Qed.

Lemma findNextSort_Some (data : list RowItem) (s n : Qc) :
  findNextSort data s = Some n ->
  (exists r, In r data /\ sort r = n)
  /\ s < n
  /\ forall x, In x data -> s < sort x -> n <= sort x.
Proof.
  unfold findNextSort.
  destruct (sortBySort _) as [|r t] eqn:E; [discriminate|].
  intros H. injection H as <-.
  apply sortBySort_head in E. destruct E as [Hin Hmin].
  apply filter_In in Hin. destruct Hin as [Hin Hlt].
  apply Qcltb_lt in Hlt. split; [eauto|]. split; [exact Hlt|].
  intros x Hx Hxs. apply Hmin, filter_In. split; [exact Hx|].
  now apply Qcltb_lt.
Qed.

Lemma findNextSort_None (data : list RowItem) (s : Qc) :
  findNextSort data s = None ->
  forall x, In x data -> sort x <= s.
Proof.
  unfold findNextSort.
  destruct (sortBySort _) as [|r t] eqn:E; [|discriminate].
  intros _ x Hx. apply sortBySort_nil in E.
  apply Qcnot_lt_le. intros Hlt.
  assert (Hin : In x (filter (fun i => Qcltb s (sort i)) data)).
  { apply filter_In. split; [exact Hx | now apply Qcltb_lt]. }
  rewrite E in Hin. exact Hin.
Qed.

(** ** Resolving identifiers *)

Lemma getSortForId_rowId (data : list RowItem) (k : string) (b : bool) :
  getSortForId data (rowId k) b
  = match find (fun x => String.eqb (key x) k) data with
    | Some r => Some (sort r)
    | None => None
    end.
Proof.
  unfold getSortForId. rewrite startsWith_row, slice_row. reflexivity.
Qed.

Lemma getSortForId_groupId_first (data : list RowItem) (g : string) :
  getSortForId data (groupId g) false
  = match sortBySort (members data g) with
    | [] => None
    | r :: _ => Some (sort r)
    end.
Proof.
  unfold getSortForId.
  rewrite startsWith_group_row, startsWith_group, slice_group. reflexivity.
Qed.

Lemma getSortForId_groupId_last (data : list RowItem) (g : string) :
  getSortForId data (groupId g) true
  = match lastRow (sortBySort (members data g)) with
    | Some r => Some (sort r)
    | None => None
    end.
Proof.
  unfold getSortForId.
  rewrite startsWith_group_row, startsWith_group, slice_group.
  fold (members data g).
  destruct (sortBySort (members data g)) as [|r t] eqn:E; reflexivity.
Qed.

Lemma id_cases (a : string) :
  (exists k, a = rowId k)
  \/ (exists g, a = groupId g)
  \/ (forall data b, getSortForId data a b = None).
Proof.
  destruct (startsWith a "row:") eqn:Er.
  - left. exists (slice a 4). apply (prefix_slice "row:" a Er).
  - destruct (startsWith a "group:") eqn:Eg.
    + right; left. exists (slice a 6). apply (prefix_slice "group:" a Eg).
    + right; right. intros data b. unfold getSortForId.
      now rewrite Er, Eg.
Qed.

Lemma members_In (data : list RowItem) (g : string) (r : RowItem) :
  In r (members data g) <-> In r data /\ groupKey r = g.
Proof.
  unfold members. rewrite filter_In, String.eqb_eq. reflexivity.
Qed.

Lemma group_first_spec (data : list RowItem) (g : string) (v : Qc) :
  getSortForId data (groupId g) false = Some v ->
  (exists r, In r data /\ groupKey r = g /\ sort r = v)
  /\ forall x, In x data -> groupKey x = g -> v <= sort x.
Proof.
  rewrite getSortForId_groupId_first.
  destruct (sortBySort (members data g)) as [|r t] eqn:E; [discriminate|].
  intros H. injection H as <-.
  apply sortBySort_head in E. destruct E as [Hin Hmin].
  apply members_In in Hin. destruct Hin as [Hin Hg]. split; [eauto|].
  intros x Hx Hxg. apply Hmin, members_In. auto.
Qed.

Lemma group_last_spec (data : list RowItem) (g : string) (v : Qc) :
  getSortForId data (groupId g) true = Some v ->
  (exists r, In r data /\ groupKey r = g /\ sort r = v)
  /\ forall x, In x data -> groupKey x = g -> sort x <= v.
Proof.
  rewrite getSortForId_groupId_last.
  destruct (lastRow _) as [r|] eqn:E; [|discriminate].
  intros H. injection H as <-.
  apply sortBySort_last in E. destruct E as [Hin Hmax].
  apply members_In in Hin. destruct Hin as [Hin Hg]. split; [eauto|].
  intros x Hx Hxg. apply Hmax, members_In. auto.
Qed.

Lemma getSortForId_In (data : list RowItem) (a : string) (b : bool) (v : Qc) :
  getSortForId data a b = Some v -> exists r, In r data /\ sort r = v.
Proof.
  destruct (id_cases a) as [[k ->] | [[g ->] | Hn]].
  - rewrite getSortForId_rowId.
    destruct (find _ data) as [r|] eqn:E; [|discriminate].
    intros H. injection H as <-. apply find_some in E. exists r. tauto.
  - destruct b; intros H.
    + apply group_last_spec in H. destruct H as [(r & ? & ? & ?) _]. eauto.
    + apply group_first_spec in H. destruct H as [(r & ? & ? & ?) _]. eauto.
  - rewrite Hn. discriminate.
Qed.

Lemma getSortForId_end (data : list RowItem) (a : string) (v : Qc) :
  getSortForId data a false = Some v ->
  exists u, getSortForId data a true = Some u /\ v <= u.
Proof.
  destruct (id_cases a) as [[k ->] | [[g ->] | Hn]].
  - rewrite !getSortForId_rowId. intros ->. exists v.
    split; [reflexivity | apply Qcle_refl].
  - intros H. apply group_first_spec in H.
    destruct H as [(r & Hr & Hg & <-) Hmin].
    rewrite getSortForId_groupId_last.
    destruct (lastRow _) as [l|] eqn:E.
    + exists (sort l). split; [reflexivity|].
      apply sortBySort_last in E. destruct E as [_ Hmax].
      apply Hmax, members_In. auto.
    + apply lastRow_None, sortBySort_nil in E.
      assert (Hin : In r (members data g)) by (apply members_In; auto).
      rewrite E in Hin. destruct Hin.
  - rewrite Hn. discriminate.
Qed.

(** ** Insertion gaps *)

Lemma gap_up (data : list RowItem) (d : Qc) :
  0 < d -> isGap data (nullish (findPrevSort data d) 0) d.
Proof.
  intros Hd. destruct (findPrevSort data d) as [p|] eqn:E; simpl.
  - apply findPrevSort_Some in E. destruct E as (_ & Hp & Hmax).
    split; [exact Hp|]. intros x Hx.
    destruct (Qclt_le_dec (sort x) d) as [Hlt | Hge]; auto.
  - split; [exact Hd|]. intros x Hx. right.
    apply (findPrevSort_None _ _ E x Hx).
Qed.

Lemma gap_down (data : list RowItem) (u fallback : Qc) :
  u < fallback -> isGap data u (nullish (findNextSort data u) fallback).
Proof.
  intros Hf. destruct (findNextSort data u) as [n|] eqn:E; simpl.
  - apply findNextSort_Some in E. destruct E as (_ & Hn & Hmin).
    split; [exact Hn|]. intros x Hx.
    destruct (Qclt_le_dec u (sort x)) as [Hlt | Hge]; auto.
  - split; [exact Hf|]. intros x Hx. left.
    apply (findNextSort_None _ _ E x Hx).
Qed.

Lemma positive_In (data : list RowItem) (r : RowItem) :
  positiveSorts data -> In r data -> 0 < sort r.
Proof.
  unfold positiveSorts. rewrite Forall_forall. auto.
Qed.

Lemma gap_not_inside (data : list RowItem) (up down v : Qc) :
  isGap data up down -> up < v -> v < down -> ~ In v (map sort data).
Proof.
  intros [_ G] H1 H2 Hin. apply in_map_iff in Hin.
  destruct Hin as (x & <- & Hx).
  destruct (G x Hx) as [Hle | Hle].
  - exact (Qcle_not_lt _ _ Hle H1).
  - exact (Qcle_not_lt _ _ Hle H2).
Qed.

(** ** The two directions of a move *)

Lemma computeNewSorts_up (data : list RowItem) (a o : string) (sa so : Qc) :
  getSortForId data a false = Some sa ->
  getSortForId data o false = Some so ->
  so < sa ->
  computeNewSorts data a o
  = let up := nullish (findPrevSort data so) 0 in
    if startsWith a "row:" && negb (startsWith a "group:")
    then updateRowSort data (slice a 4) ((so - up) / Qc_of_Z 2 + up)
    else if startsWith a "group:"
    then updateGroupSort data (slice a 6) up
           ((so - up)
            / (Qc_of_nat (List.length (members data (slice a 6))) + 1))
    else data.
Proof.
  intros Ha Ho Hlt. unfold computeNewSorts. rewrite Ha, Ho.
  assert (E1 : Qcltb so sa = true) by now apply Qcltb_lt.
  assert (E2 : Qcltb sa so = false)
    by (apply Qcltb_nlt, Qclt_le_weak, Hlt).
  rewrite E1, E2, Ho, map_clone, sortBySort_length. reflexivity.
Qed.

Lemma computeNewSorts_down (data : list RowItem) (a o : string) (sa so u : Qc) :
  getSortForId data a false = Some sa ->
  getSortForId data o false = Some so ->
  sa < so ->
  getSortForId data o true = Some u ->
  computeNewSorts data a o
  = if startsWith a "row:" && negb (startsWith a "group:")
    then updateRowSort data (slice a 4)
           (u + (nullish (findNextSort data u) (u + Qc_of_Z 2) - u) / Qc_of_Z 2)
    else if startsWith a "group:"
    then let n := Qc_of_nat (List.length (members data (slice a 6))) in
         updateGroupSort data (slice a 6) u
           ((nullish (findNextSort data u) (u + n + 1) - u) / (n + 1))
    else data.
Proof.
  intros Ha Ho Hlt Hu. unfold computeNewSorts. rewrite Ha, Ho.
  assert (E1 : Qcltb sa so = true) by now apply Qcltb_lt.
  assert (E2 : Qcltb so sa = false)
    by (apply Qcltb_nlt, Qclt_le_weak, Hlt).
  rewrite E1, E2, Hu, map_clone, sortBySort_length. reflexivity.
Qed.

(** ** Midpoint insertion of a single row *)

Lemma findNextSort_of_least (data : list RowItem) (s : Qc) (S : RowItem) :
  In S data -> s < sort S ->
  (forall x, In x data -> s < sort x -> sort S <= sort x) ->
  findNextSort data s = Some (sort S).
Proof.
  intros HS Hlt Hmin. destruct (findNextSort data s) as [n|] eqn:E.
  - apply findNextSort_Some in E. destruct E as ((r & Hr & <-) & Hn & Hle).
    f_equal. apply Qcle_antisym; auto.
  - exfalso. pose proof (findNextSort_None _ _ E S HS) as X.
    exact (Qcle_not_lt _ _ X Hlt).
Qed.

Lemma findPrevSort_of_greatest (data : list RowItem) (s : Qc) (P : RowItem) :
  In P data -> sort P < s ->
  (forall x, In x data -> sort x < s -> sort x <= sort P) ->
  findPrevSort data s = Some (sort P).
Proof.
  intros HP Hlt Hmax. destruct (findPrevSort data s) as [p|] eqn:E.
  - apply findPrevSort_Some in E. destruct E as ((r & Hr & <-) & Hp & Hle).
    f_equal. apply Qcle_antisym; auto.
  - exfalso. pose proof (findPrevSort_None _ _ E P HP) as X.
    exact (Qcle_not_lt _ _ X Hlt).
Qed.

Lemma findPrevSort_of_none (data : list RowItem) (s : Qc) :
  (forall x, In x data -> s <= sort x) -> findPrevSort data s = None.
Proof.
  intros H. destruct (findPrevSort data s) as [p|] eqn:E; [|reflexivity].
  exfalso. apply findPrevSort_Some in E. destruct E as ((r & Hr & <-) & Hp & _).
  exact (Qcle_not_lt _ _ (H r Hr) Hp).
Qed.

(** C5, as amended (exact arithmetic). Let R be the row with identifier
    [k] and T the row with identifier [t], in a collection with positive
    order keys.  Moved down onto T, when S is the row with the smallest key
    strictly above T's, R is assigned the midpoint
    [T.sort + (S.sort - T.sort) / 2], strictly between the two keys.  Moved
    up onto T, R is assigned the midpoint of T's key and the largest key
    strictly below it, or of T's key and 0 when no key is below it, again
    strictly between the two.  In each case no row with another identifier
    is modified. *)
Theorem row_move_midpoint (data : list RowItem) (k t : string) (R T : RowItem) :
  positiveSorts data ->
  find (fun x => String.eqb (key x) k) data = Some R ->
  find (fun x => String.eqb (key x) t) data = Some T ->
  (forall S, sort R < sort T ->
     In S data -> sort T < sort S ->
     (forall x, In x data -> sort T < sort x -> sort S <= sort x) ->
     let v := sort T + (sort S - sort T) / Qc_of_Z 2 in
     sort T < v < sort S
     /\ computeNewSorts data (rowId k) (rowId t)
        = map (fun r => if String.eqb (key r) k then setSort r v else r) data)
  /\ (forall P, sort T < sort R ->
       In P data -> sort P < sort T ->
       (forall x, In x data -> sort x < sort T -> sort x <= sort P) ->
       let v := sort P + (sort T - sort P) / Qc_of_Z 2 in
       sort P < v < sort T
       /\ computeNewSorts data (rowId k) (rowId t)
          = map (fun r => if String.eqb (key r) k then setSort r v else r)
              data)
  /\ (sort T < sort R ->
      (forall x, In x data -> sort T <= sort x) ->
      let v := 0 + (sort T - 0) / Qc_of_Z 2 in
      0 < v < sort T
      /\ computeNewSorts data (rowId k) (rowId t)
         = map (fun r => if String.eqb (key r) k then setSort r v else r)
             data).
Proof.
  intros HPos HR HT.
  assert (Ha : getSortForId data (rowId k) false = Some (sort R))
    by (rewrite getSortForId_rowId, HR; reflexivity).
  assert (Ho : forall b, getSortForId data (rowId t) b = Some (sort T))
    by (intros b; rewrite getSortForId_rowId, HT; reflexivity).
  assert (HTin : In T data) by (apply find_some in HT; tauto).
  split; [|split].
  - intros S Hlt HS HTS Hmin v. split; [now apply mid_between|].
    rewrite (computeNewSorts_down data _ _ _ _ _ Ha (Ho false) Hlt (Ho true)).
    rewrite startsWith_row, startsWith_row_group, slice_row.
    rewrite (findNextSort_of_least data (sort T) S HS HTS Hmin). reflexivity.
  - intros P Hlt HP HPT Hmax v. split; [now apply mid_between|].
    rewrite (computeNewSorts_up data _ _ _ _ Ha (Ho false) Hlt). cbv zeta.
    rewrite startsWith_row, startsWith_row_group, slice_row.
    rewrite (findPrevSort_of_greatest data (sort T) P HP HPT Hmax).
    simpl andb. cbv iota. simpl nullish. rewrite mid_comm. reflexivity.
  - intros Hlt Hnone v. split.
    + apply mid_between. now apply positive_In with data.
    + rewrite (computeNewSorts_up data _ _ _ _ Ha (Ho false) Hlt). cbv zeta.
      rewrite startsWith_row, startsWith_row_group, slice_row.
      rewrite (findPrevSort_of_none data (sort T) Hnone).
      simpl andb. cbv iota. simpl nullish. rewrite mid_comm. reflexivity.
Qed.

(** ** Key uniqueness *)

Lemma updateRowSort_absent (data : list RowItem) (k : string) (v : Qc) :
  ~ In k (map key data) -> updateRowSort data k v = data.
Proof.
  induction data as [|r t IH]; simpl; intros H; [reflexivity|].
  destruct (String.eqb (key r) k) eqn:E.
  - apply String.eqb_eq in E. exfalso. apply H. now left.
  - f_equal. apply IH. intros Hin. apply H. now right.
Qed.

Lemma updateRowSort_sorts (data : list RowItem) (k : string) (v x : Qc) :
  In x (map sort (updateRowSort data k v)) -> x = v \/ In x (map sort data).
Proof.
  induction data as [|r t IH]; simpl; [tauto|].
  intros [H | H].
  - destruct (String.eqb (key r) k); simpl in H; auto.
  - destruct (IH H); auto.
Qed.

Lemma updateRowSort_unique (data : list RowItem) (k : string) (v : Qc) :
  uniqueKeys data -> uniqueSorts data -> ~ In v (map sort data) ->
  uniqueSorts (updateRowSort data k v).
Proof.
  unfold uniqueKeys, uniqueSorts.
  induction data as [|r t IH]; simpl; intros HK HS Hv; [constructor|].
  inversion HK as [|? ? HKr HKt]; subst.
  inversion HS as [|? ? HSr HSt]; subst.
  destruct (String.eqb (key r) k) eqn:E.
  - apply String.eqb_eq in E. subst k.
    fold (updateRowSort t (key r) v).
    rewrite (updateRowSort_absent t (key r) v HKr). simpl.
    constructor; [|exact HSt]. intros Hin. apply Hv. now right.
  - fold (updateRowSort t k v). constructor.
    + intros Hin. apply updateRowSort_sorts in Hin.
      destruct Hin as [Hin | Hin]; [|contradiction].
      apply Hv. now left.
    + apply IH; auto.
Qed.

Section GroupSpacing.

Variables (g : string) (up down : Qc) (n : nat).
Hypothesis Hlt : up < down.

Local Abbreviation JQ := ((down - up) / (Qc_of_nat n + 1)).

Lemma updateGroupSortFrom_sorts (data : list RowItem) :
  forall idx x,
  In x (map sort (updateGroupSortFrom idx data g up JQ)) ->
  (exists r, In r data /\ groupKey r <> g /\ sort r = x)
  \/ (exists i, (idx <= i < idx + List.length (members data g))%nat
                /\ x = up + JQ * Qc_of_nat i).
Proof.
  induction data as [|r t IH]; simpl; intros idx x H; [tauto|].
  unfold members. simpl.
  destruct (String.eqb (groupKey r) g) eqn:E; simpl in H |- *.
  - destruct H as [H | H].
    + right. exists idx. split; [lia | now symmetry].
    + destruct (IH _ _ H) as [(r' & ? & ? & ?) | (i & Hi & ?)].
      * left. exists r'. auto.
      * right. exists i. unfold members in Hi. split; [lia | assumption].
  - apply String.eqb_neq in E. destruct H as [H | H].
    + left. exists r. auto.
    + destruct (IH _ _ H) as [(r' & ? & ? & ?) | (i & Hi & ?)].
      * left. exists r'. auto.
      * right. exists i. auto.
Qed.

Lemma updateGroupSortFrom_unique (data : list RowItem) :
  isGap data up down ->
  uniqueSorts data ->
  forall idx, (1 <= idx)%nat ->
  (idx + List.length (members data g) <= S n)%nat ->
  uniqueSorts (updateGroupSortFrom idx data g up JQ).
Proof.
  unfold uniqueSorts.
  induction data as [|r t IH]; simpl; intros G HS idx H1 Hn; [constructor|].
  inversion HS as [|? ? HSr HSt]; subst.
  assert (Gt : isGap t up down).
  { destruct G as [? G]. split; [assumption|]. intros y Hy. apply G.
    now right. }
  unfold members in Hn. simpl in Hn.
  destruct (String.eqb (groupKey r) g) eqn:E; simpl in Hn |- *.
  - constructor.
    + intros Hin. apply updateGroupSortFrom_sorts in Hin.
      destruct Hin as [(r' & Hr' & _ & Hs) | (i & Hi & Hs)].
      * apply (gap_not_inside t up down (up + JQ * Qc_of_nat idx) Gt).
        -- apply step_above; assumption.
        -- apply step_below; [assumption | lia].
        -- rewrite <- Hs. now apply in_map.
      * assert (Hm : up + JQ * Qc_of_nat idx < up + JQ * Qc_of_nat i)
          by (apply step_mono; [assumption | lia]).
        rewrite <- Hs in Hm. exact (Qclt_irrefl _ Hm).
    + apply IH; auto. unfold members. lia.
  - constructor.
    + intros Hin. apply updateGroupSortFrom_sorts in Hin.
      destruct Hin as [(r' & Hr' & _ & Hs) | (i & Hi & Hs)].
      * apply HSr. rewrite <- Hs. now apply in_map.
      * apply (gap_not_inside (r :: t) up down (sort r) G).
        -- rewrite Hs. apply step_above; [assumption | lia].
        -- rewrite Hs. apply step_below; [assumption|].
           unfold members in Hi. lia.
        -- now left.
    + apply IH; auto.
Qed.

End GroupSpacing.

Lemma updateGroupSort_unique (data : list RowItem) (g : string) (up down : Qc) :
  isGap data up down ->
  uniqueSorts data ->
  uniqueSorts
    (updateGroupSort data g up
       ((down - up) / (Qc_of_nat (List.length (members data g)) + 1))).
Proof.
  intros G HS. unfold updateGroupSort.
  apply updateGroupSortFrom_unique with (down := down); auto.
  - apply G.
Qed.

(** C2, as amended. With unique row identifiers and strictly unique,
    positive order keys, no two rows of the collection returned by [computeNewSorts] share
    an order key, for every pair of identifiers (sortedness of the
    collection and contiguity of the groups are not needed). *)
Theorem computeNewSorts_unique_sorts (data : list RowItem) (a o : string) :
  uniqueKeys data -> uniqueSorts data -> positiveSorts data ->
  uniqueSorts (computeNewSorts data a o).
Proof.
  intros HK HS HP.
  destruct (getSortForId data a false) as [sa|] eqn:Ha.
  2: { rewrite computeNewSorts_unresolved; auto. }
  destruct (getSortForId data o false) as [so|] eqn:Ho.
  2: { rewrite computeNewSorts_unresolved; auto. }
  destruct (Qc_dec so sa) as [[Hlt | Hlt] | Heq].
  - rewrite (computeNewSorts_up data a o sa so Ha Ho Hlt). cbv zeta.
    assert (G : isGap data (nullish (findPrevSort data so) 0) so).
    { apply gap_up. destruct (getSortForId_In _ _ _ _ Ho) as (r & Hr & <-).
      now apply positive_In with data. }
    destruct (startsWith a "row:" && negb (startsWith a "group:")).
    + apply updateRowSort_unique; auto. rewrite mid_comm.
      destruct (mid_between _ _ (proj1 G)).
      now apply gap_not_inside with (up := nullish (findPrevSort data so) 0)
                                    (down := so).
    + destruct (startsWith a "group:"); [|exact HS].
      now apply updateGroupSort_unique.
  - destruct (getSortForId_end _ _ _ Ho) as (u & Hu & _).
    rewrite (computeNewSorts_down data a o sa so u Ha Ho Hlt Hu). cbv zeta.
    destruct (startsWith a "row:" && negb (startsWith a "group:")).
    + assert (G : isGap data u (nullish (findNextSort data u)
                                        (u + Qc_of_Z 2)))
        by (apply gap_down, plus2_above).
      apply updateRowSort_unique; auto.
      destruct (mid_between _ _ (proj1 G)).
      eapply gap_not_inside; eauto.
    + destruct (startsWith a "group:"); [|exact HS].
      apply updateGroupSort_unique; auto.
      apply gap_down, plusn1_above.
  - subst so. rewrite computeNewSorts_same_key; [exact HS | congruence].
Qed.

(** ** Soundness of the boolean checks *)

Lemma distinctStrings_NoDup (l : list string) :
  distinctStrings l = true -> NoDup l.
Proof.
  induction l as [|x t IH]; simpl; intros H; [constructor|].
  apply andb_prop in H. destruct H as [H1 H2].
  constructor; [|apply IH, H2].
  intros Hin. rewrite forallb_forall in H1. specialize (H1 x Hin).
  rewrite String.eqb_refl in H1. discriminate.
Qed.

Lemma distinctNumbers_NoDup (l : list Qc) :
  distinctNumbers l = true -> NoDup l.
Proof.
  induction l as [|x t IH]; simpl; intros H; [constructor|].
  apply andb_prop in H. destruct H as [H1 H2].
  constructor; [|apply IH, H2].
  intros Hin. rewrite forallb_forall in H1. specialize (H1 x Hin).
  unfold Qc_eq_bool in H1. destruct (Qc_eq_dec x x); [discriminate|].
  congruence.
Qed.

Lemma uniqueKeys_check (data : list RowItem) :
  distinctStrings (map key data) = true -> uniqueKeys data.
Proof. apply distinctStrings_NoDup. Qed.

Lemma uniqueSorts_check (data : list RowItem) :
  distinctNumbers (map sort data) = true -> uniqueSorts data.
Proof. apply distinctNumbers_NoDup. Qed.

Lemma positiveSorts_check (data : list RowItem) :
  positiveSortsb data = true -> positiveSorts data.
Proof.
  unfold positiveSortsb, positiveSorts. rewrite forallb_forall, Forall_forall.
  intros H x Hx. apply Qcltb_lt, H, Hx.
Qed.

Lemma sortedAscending_check (data : list RowItem) :
  sortedAscendingb data = true -> sortedAscending data.
Proof.
  induction data as [|r t IH]; simpl; intros H; [exact I|].
  apply andb_prop in H. destruct H as [H1 H2]. split; [|apply IH, H2].
  rewrite forallb_forall in H1. apply Forall_forall.
  intros x Hx. apply Qcleb_le, H1, Hx.
Qed.

Lemma groupBelow_check (data : list RowItem) (g h : string) :
  groupBelowb data g h = true -> groupBelow data g h.
Proof.
  unfold groupBelowb, groupBelow. rewrite forallb_forall.
  intros H r s Hr Hs Hg Hh. specialize (H r Hr).
  rewrite forallb_forall in H. specialize (H s Hs).
  rewrite <- Hg, <- Hh, !String.eqb_refl in H. simpl in H.
  now apply Qcltb_lt.
Qed.

Lemma groupBelow_vacuous (data : list RowItem) (g h : string) :
  existsb (fun r => String.eqb (groupKey r) g) data = false ->
  groupBelow data g h /\ groupBelow data h g.
Proof.
  intros E.
  assert (N : forall r, In r data -> groupKey r <> g).
  { intros r Hr Hg.
    assert (X : existsb (fun r => String.eqb (groupKey r) g) data = true).
    { apply existsb_exists. exists r. split; [exact Hr|].
      now apply String.eqb_eq. }
    congruence. }
  split; intros r s Hr Hs Hg Hh; exfalso;
    [exact (N r Hr Hg) | exact (N s Hs Hh)].
Qed.

Lemma groupsContiguous_check (data : list RowItem) :
  groupsContiguousb data = true -> groupsContiguous data.
Proof.
  unfold groupsContiguousb. rewrite forallb_forall.
  intros H g h Hgh.
  destruct (existsb (fun r => String.eqb (groupKey r) g) data) eqn:Eg.
  2: { left. apply (groupBelow_vacuous data g h Eg). }
  destruct (existsb (fun r => String.eqb (groupKey r) h) data) eqn:Eh.
  2: { left. apply (groupBelow_vacuous data h g Eh). }
  apply existsb_exists in Eg, Eh.
  destruct Eg as (r & Hr & Hg), Eh as (s & Hs & Hh).
  apply String.eqb_eq in Hg, Hh. subst g h.
  specialize (H r Hr). rewrite forallb_forall in H. specialize (H s Hs).
  apply String.eqb_neq in Hgh. rewrite Hgh in H. simpl in H.
  apply orb_prop in H. destruct H as [H | H]; [left | right];
    apply groupBelow_check, H.
Qed.

Lemma computeNewSorts_unique_sorts_witness :
  uniqueSorts (computeNewSorts initialData (groupId "group-A") (rowId "3-1")).
Proof.
  apply (computeNewSorts_unique_sorts initialData
           (groupId "group-A") (rowId "3-1")).
  - apply uniqueKeys_check. vm_compute. reflexivity.
  - apply uniqueSorts_check. vm_compute. reflexivity.
  - apply positiveSorts_check. vm_compute. reflexivity.
Defined.

Lemma row_move_midpoint_witness :
  (Qc_of_Z 4 < Qc_of_Z 4 + (Qc_of_Z 5 - Qc_of_Z 4) / Qc_of_Z 2 < Qc_of_Z 5
   /\ computeNewSorts initialData (rowId "1-2") (rowId "2-1")
      = map (fun r => if String.eqb (key r) "1-2"
                      then setSort r (Qc_of_Z 4
                                      + (Qc_of_Z 5 - Qc_of_Z 4) / Qc_of_Z 2)
                      else r) initialData)
  /\ (0 < 0 + (Qc_of_Z 1 - 0) / Qc_of_Z 2 < Qc_of_Z 1
      /\ computeNewSorts initialData (rowId "1-2") (rowId "1-1")
         = map (fun r => if String.eqb (key r) "1-2"
                         then setSort r (0 + (Qc_of_Z 1 - 0) / Qc_of_Z 2)
                         else r) initialData).
Proof.
  assert (HP : positiveSorts initialData)
    by (apply positiveSorts_check; vm_compute; reflexivity).
  assert (L : forall (x : RowItem) (P : RowItem -> Prop),
            P (mkRow "1-1" "group-A" (Some 3%nat) "A" "产品 A1" 10 (Qc_of_Z 1)) ->
            P (mkRow "1-2" "group-A" None "A" "产品 A2" 20 (Qc_of_Z 2)) ->
            P (mkRow "1-3" "group-A" None "A" "产品 A3" 30 (Qc_of_Z 3)) ->
            P (mkRow "2-1" "group-B" (Some 2%nat) "B" "产品 B1" 5 (Qc_of_Z 4)) ->
            P (mkRow "2-2" "group-B" None "B" "产品 B2" 15 (Qc_of_Z 5)) ->
            P (mkRow "3-1" "group-C" (Some 1%nat) "C" "产品 C1" 40 (Qc_of_Z 6)) ->
            In x initialData -> P x).
  { intros x P H1 H2 H3 H4 H5 H6 Hx. simpl in Hx.
    repeat (destruct Hx as [<- | Hx]; [assumption|]). destruct Hx. }
  split.
  - destruct (row_move_midpoint initialData "1-2" "2-1"
                (mkRow "1-2" "group-A" None "A" "产品 A2" 20 (Qc_of_Z 2))
                (mkRow "2-1" "group-B" (Some 2%nat) "B" "产品 B1" 5 (Qc_of_Z 4))
                HP eq_refl eq_refl) as (Hdown & _ & _).
    apply (Hdown (mkRow "2-2" "group-B" None "B" "产品 B2" 15 (Qc_of_Z 5))).
    + reflexivity.
    + simpl. tauto.
    + reflexivity.
    + intros x Hx. revert x Hx.
      refine (fun x => L x (fun x => _ < sort x -> _ <= sort x) _ _ _ _ _ _);
        simpl; intros H; vm_compute in H |- *; congruence.
  - destruct (row_move_midpoint initialData "1-2" "1-1"
                (mkRow "1-2" "group-A" None "A" "产品 A2" 20 (Qc_of_Z 2))
                (mkRow "1-1" "group-A" (Some 3%nat) "A" "产品 A1" 10 (Qc_of_Z 1))
                HP eq_refl eq_refl) as (_ & _ & Hup).
    apply Hup.
    + reflexivity.
    + intros x Hx. revert x Hx.
      refine (fun x => L x (fun x => _ <= sort x) _ _ _ _ _ _);
        simpl; vm_compute; congruence.
Defined.

(** ** Group contiguity *)

Lemma updateGroupSortFrom_In (data : list RowItem) (g : string) (up JQ : Qc) :
  forall idx r',
  In r' (updateGroupSortFrom idx data g up JQ) ->
  (In r' data /\ groupKey r' <> g)
  \/ (groupKey r' = g
      /\ exists i, (idx <= i < idx + List.length (members data g))%nat
                   /\ sort r' = up + JQ * Qc_of_nat i).
Proof.
  induction data as [|r t IH]; simpl; intros idx r' H; [tauto|].
  unfold members. simpl.
  destruct (String.eqb (groupKey r) g) eqn:E; simpl in H |- *.
  - destruct H as [H | H].
    + right. subst r'. simpl. apply String.eqb_eq in E. split; [exact E|].
      exists idx. split; [lia | reflexivity].
    + destruct (IH _ _ H) as [[? ?] | (? & i & Hi & ?)].
      * left. auto.
      * right. split; [assumption|]. exists i. unfold members in Hi.
        split; [lia | assumption].
  - apply String.eqb_neq in E. destruct H as [H | H].
    + left. subst r'. auto.
    + destruct (IH _ _ H) as [[? ?] | (? & i & Hi & ?)].
      * left. auto.
      * right. split; [assumption|]. exists i. auto.
Qed.

Lemma updateGroupSort_In (data : list RowItem) (g : string) (up down : Qc) r' :
  up < down ->
  In r' (updateGroupSort data g up
           ((down - up) / (Qc_of_nat (List.length (members data g)) + 1))) ->
  (In r' data /\ groupKey r' <> g)
  \/ (groupKey r' = g /\ up < sort r' < down).
Proof.
  intros Hlt H. apply updateGroupSortFrom_In in H.
  destruct H as [H | (Hg & i & Hi & Hs)]; [now left|].
  right. split; [exact Hg|]. rewrite Hs. split.
  - apply step_above; [exact Hlt | lia].
  - apply step_below; [exact Hlt | lia].
Qed.

Section BlockPlacement.

Variables (data : list RowItem) (g : string) (up down : Qc).
Hypothesis G : isGap data up down.
Hypothesis noStraddle :
  forall s s', In s data -> In s' data -> groupKey s = groupKey s' ->
    groupKey s <> g -> sort s <= up -> down <= sort s' -> False.

Local Abbreviation placed :=
  (updateGroupSort data g up
     ((down - up) / (Qc_of_nat (List.length (members data g)) + 1))).

Lemma placed_against_other (k : string) :
  k <> g -> groupBelow placed k g \/ groupBelow placed g k.
Proof.
  intros Hk.
  destruct (forallb (fun s => negb (String.eqb (groupKey s) k)
                              || Qcleb (sort s) up) data) eqn:E.
  - left. rewrite forallb_forall in E. intros r s Hr Hs Hrk Hsg.
    apply updateGroupSort_In in Hr, Hs; try apply G.
    destruct Hr as [[Hr _] | [Hr _]]; [|congruence].
    destruct Hs as [[_ Hs] | [_ [Hs _]]]; [congruence|].
    specialize (E r Hr). rewrite Hrk, String.eqb_refl in E. simpl in E.
    apply Qcleb_le in E. eapply Qcle_lt_trans; eassumption.
  - right.
    assert (X : exists s0, In s0 data /\ groupKey s0 = k /\ down <= sort s0).
    { destruct (forallb_forall
                  (fun s => negb (String.eqb (groupKey s) k)
                            || Qcleb (sort s) up) data) as [_ B].
      destruct (existsb
                  (fun s => String.eqb (groupKey s) k
                            && negb (Qcleb (sort s) up)) data) eqn:X.
      - apply existsb_exists in X. destruct X as (s0 & Hs0 & X).
        apply andb_prop in X. destruct X as [X1 X2].
        apply String.eqb_eq in X1. apply negb_true_iff, Qcleb_nle in X2.
        exists s0. split; [exact Hs0|]. split; [exact X1|].
        destruct (proj2 G s0 Hs0) as [Hle | Hge]; [|exact Hge].
        exfalso. exact (Qcle_not_lt _ _ Hle X2).
      - exfalso. rewrite B in E; [discriminate|].
        intros s Hs.
        destruct (String.eqb (groupKey s) k) eqn:Ek; [|reflexivity].
        destruct (Qcleb (sort s) up) eqn:El; [reflexivity|].
        assert (Y : existsb
                      (fun s => String.eqb (groupKey s) k
                                && negb (Qcleb (sort s) up)) data = true).
        { apply existsb_exists. exists s. now rewrite Ek, El. }
        congruence. }
    destruct X as (s0 & Hs0 & Hs0k & Hs0d).
    intros r s Hr Hs Hrg Hsk.
    apply updateGroupSort_In in Hr, Hs; try apply G.
    destruct Hs as [[Hs _] | [Hs _]]; [|congruence].
    destruct Hr as [[_ Hr] | [_ [_ Hr]]]; [congruence|].
    eapply Qclt_le_trans; [exact Hr|].
    destruct (proj2 G s Hs) as [Hle | Hge]; [|exact Hge].
    exfalso. apply (noStraddle s s0); auto; congruence.
Qed.

Lemma placed_contiguous : groupsContiguous data -> groupsContiguous placed.
Proof.
  intros C k1 k2 Hne.
  destruct (string_dec k1 g) as [-> | H1].
  { destruct (placed_against_other k2) as [H | H]; auto. }
  destruct (string_dec k2 g) as [-> | H2].
  { now apply placed_against_other. }
  destruct (C k1 k2 Hne) as [H | H]; [left | right];
    intros r s Hr Hs Hrk Hsk;
    apply updateGroupSort_In in Hr, Hs; try apply G;
    destruct Hr as [[Hr _] | [Hr _]]; try congruence;
    destruct Hs as [[Hs _] | [Hs _]]; try congruence;
    now apply H.
Qed.

End BlockPlacement.

Lemma no_straddle_up (data : list RowItem) (g h : string) (so : Qc) :
  groupsContiguous data ->
  getSortForId data (groupId h) false = Some so ->
  isGap data (nullish (findPrevSort data so) 0) so ->
  forall s s', In s data -> In s' data -> groupKey s = groupKey s' ->
    groupKey s <> g -> sort s <= nullish (findPrevSort data so) 0 ->
    so <= sort s' -> False.
Proof.
  intros C Ho [Hlt _] s s' Hs Hs' Hk _ Hle Hge.
  apply group_first_spec in Ho. destruct Ho as [(h0 & Hh0 & Hh0g & Hh0s) Hmin].
  assert (Hs_lt : sort s < so) by (eapply Qcle_lt_trans; eassumption).
  destruct (string_dec (groupKey s) h) as [E | E].
  - exact (Qcle_not_lt _ _ (Hmin s Hs E) Hs_lt).
  - destruct (C (groupKey s) h E) as [B | B].
    + assert (X : sort s' < sort h0) by (apply B; auto; congruence).
      rewrite Hh0s in X. exact (Qcle_not_lt _ _ Hge X).
    + assert (X : sort h0 < sort s) by (apply B; auto).
      rewrite Hh0s in X. exact (Qclt_asym _ _ X Hs_lt).
Qed.

Lemma no_straddle_down (data : list RowItem) (g h : string) (u down : Qc) :
  groupsContiguous data ->
  getSortForId data (groupId h) true = Some u ->
  u < down ->
  forall s s', In s data -> In s' data -> groupKey s = groupKey s' ->
    groupKey s <> g -> sort s <= u -> down <= sort s' -> False.
Proof.
  intros C Ho Hlt s s' Hs Hs' Hk _ Hle Hge.
  apply group_last_spec in Ho. destruct Ho as [(hl & Hhl & Hhlg & Hhls) Hmax].
  assert (Hs'_gt : u < sort s') by (eapply Qclt_le_trans; eassumption).
  destruct (string_dec (groupKey s) h) as [E | E].
  - assert (E' : groupKey s' = h) by congruence.
    exact (Qcle_not_lt _ _ (Hmax s' Hs' E') Hs'_gt).
  - destruct (C (groupKey s) h E) as [B | B].
    + assert (X : sort s' < sort hl) by (apply B; auto; congruence).
      rewrite Hhls in X. exact (Qclt_asym _ _ X Hs'_gt).
    + assert (X : sort hl < sort s) by (apply B; auto).
      rewrite Hhls in X. exact (Qcle_not_lt _ _ Hle X).
Qed.

Lemma group_onto_group_contiguous (data : list RowItem) (g h : string) :
  positiveSorts data -> groupsContiguous data ->
  groupsContiguous (computeNewSorts data (groupId g) (groupId h)).
Proof.
  intros HP C.
  destruct (getSortForId data (groupId g) false) as [sa|] eqn:Ha.
  2: { rewrite computeNewSorts_unresolved; auto. }
  destruct (getSortForId data (groupId h) false) as [so|] eqn:Ho.
  2: { rewrite computeNewSorts_unresolved; auto. }
  destruct (Qc_dec so sa) as [[Hlt | Hlt] | Heq].
  - rewrite (computeNewSorts_up data _ _ sa so Ha Ho Hlt). cbv zeta.
    rewrite startsWith_group_row, startsWith_group, slice_group.
    simpl andb. cbv iota.
    assert (G : isGap data (nullish (findPrevSort data so) 0) so).
    { apply gap_up. destruct (getSortForId_In _ _ _ _ Ho) as (r & Hr & <-).
      now apply positive_In with data. }
    apply placed_contiguous; auto.
    now apply no_straddle_up with (h := h).
  - destruct (getSortForId_end _ _ _ Ho) as (u & Hu & _).
    rewrite (computeNewSorts_down data _ _ sa so u Ha Ho Hlt Hu). cbv zeta.
    rewrite startsWith_group_row, startsWith_group, slice_group.
    simpl andb. cbv iota.
    set (n := Qc_of_nat (List.length (members data g))).
    assert (G : isGap data u (nullish (findNextSort data u) (u + n + 1)))
      by (apply gap_down, plusn1_above).
    apply placed_contiguous; auto.
    apply no_straddle_down with (h := h); auto. apply G.
  - subst so. rewrite computeNewSorts_same_key; [exact C | congruence].
Qed.

Lemma uniqueKeys_inj (data : list RowItem) (x y : RowItem) :
  uniqueKeys data -> In x data -> In y data -> key x = key y -> x = y.
Proof.
  unfold uniqueKeys. induction data as [|r t IH]; simpl; [tauto|].
  intros ND Hx Hy E. inversion ND as [|? ? Hr Ht]; subst.
  destruct Hx as [-> | Hx], Hy as [-> | Hy]; auto.
  - exfalso. apply Hr. rewrite E. now apply in_map.
  - exfalso. apply Hr. rewrite <- E. now apply in_map.
Qed.

Lemma updateRowSort_In (data : list RowItem) (k : string) (v : Qc) r' :
  In r' (updateRowSort data k v) ->
  (In r' data /\ key r' <> k)
  \/ (exists r, In r data /\ key r = k /\ r' = setSort r v).
Proof.
  unfold updateRowSort. rewrite in_map_iff. intros (r & E & Hr).
  destruct (String.eqb (key r) k) eqn:Ek.
  - apply String.eqb_eq in Ek. right. exists r. auto.
  - apply String.eqb_neq in Ek. left. subst r'. auto.
Qed.

Section RowPlacement.

Variables (data : list RowItem) (R T : RowItem) (up down v : Qc).
Hypothesis HK : uniqueKeys data.
Hypothesis HR : In R data.
Hypothesis HT : In T data.
Hypothesis sameGroup : groupKey T = groupKey R.
Hypothesis G : isGap data up down.
Hypothesis adjacent : sort T = up \/ sort T = down.
Hypothesis inside : up < v < down.

Lemma row_placed_below (k1 k2 : string) :
  k1 <> k2 -> groupBelow data k1 k2 ->
  groupBelow (updateRowSort data (key R) v) k1 k2.
Proof.
  intros Hne B r s Hr Hs Hrk Hsk.
  destruct inside as [I1 I2].
  apply updateRowSort_In in Hr, Hs.
  destruct Hr as [[Hr _] | (r0 & Hr0 & Kr0 & ->)],
           Hs as [[Hs _] | (s0 & Hs0 & Ks0 & ->)].
  - now apply B.
  - assert (s0 = R) by (apply (uniqueKeys_inj data); auto). subst s0.
    simpl in Hsk |- *.
    assert (X : sort r < sort T) by (apply B; auto; congruence).
    destruct adjacent as [E | E]; rewrite E in X.
    + eapply Qclt_trans; eassumption.
    + destruct (proj2 G r Hr) as [Hle | Hge].
      * eapply Qcle_lt_trans; eassumption.
      * exfalso. exact (Qcle_not_lt _ _ Hge X).
  - assert (r0 = R) by (apply (uniqueKeys_inj data); auto). subst r0.
    simpl in Hrk |- *.
    assert (X : sort T < sort s) by (apply B; auto; congruence).
    destruct adjacent as [E | E]; rewrite E in X.
    + destruct (proj2 G s Hs) as [Hle | Hge].
      * exfalso. exact (Qcle_not_lt _ _ Hle X).
      * eapply Qclt_le_trans; eassumption.
    + eapply Qclt_trans; eassumption.
  - simpl in Hrk, Hsk.
    assert (r0 = R) by (apply (uniqueKeys_inj data); auto).
    assert (s0 = R) by (apply (uniqueKeys_inj data); auto).
    subst. contradiction.
Qed.

Lemma row_placed_contiguous :
  groupsContiguous data ->
  groupsContiguous (updateRowSort data (key R) v).
Proof.
  intros C k1 k2 Hne.
  destruct (C k1 k2 Hne) as [B | B]; [left | right];
    apply row_placed_below; auto.
Qed.

End RowPlacement.

Lemma row_within_group_contiguous
  (data : list RowItem) (k t : string) (R T : RowItem) :
  uniqueKeys data -> positiveSorts data -> groupsContiguous data ->
  find (fun x => String.eqb (key x) k) data = Some R ->
  find (fun x => String.eqb (key x) t) data = Some T ->
  groupKey R = groupKey T ->
  groupsContiguous (computeNewSorts data (rowId k) (rowId t)).
Proof.
  intros HK HP C HR HT Hg.
  assert (Ha : getSortForId data (rowId k) false = Some (sort R))
    by (rewrite getSortForId_rowId, HR; reflexivity).
  assert (Ho : forall b, getSortForId data (rowId t) b = Some (sort T))
    by (intros b; rewrite getSortForId_rowId, HT; reflexivity).
  apply find_some in HR, HT. destruct HR as [HR KR], HT as [HT KT].
  apply String.eqb_eq in KR, KT.
  destruct (Qc_dec (sort T) (sort R)) as [[Hlt | Hlt] | Heq].
  - rewrite (computeNewSorts_up data _ _ _ _ Ha (Ho false) Hlt). cbv zeta.
    rewrite startsWith_row, startsWith_row_group, slice_row.
    simpl andb. cbv iota. rewrite mid_comm, <- KR.
    assert (G : isGap data (nullish (findPrevSort data (sort T)) 0) (sort T))
      by (apply gap_up; now apply positive_In with data).
    apply (row_placed_contiguous data R T _ _ _ HK HR HT (eq_sym Hg) G);
      auto.
    apply mid_between, G.
  - rewrite (computeNewSorts_down data _ _ _ _ _ Ha (Ho false) Hlt (Ho true)).
    rewrite startsWith_row, startsWith_row_group, slice_row.
    simpl andb. cbv iota. rewrite <- KR.
    assert (G : isGap data (sort T)
                  (nullish (findNextSort data (sort T))
                     (sort T + Qc_of_Z 2)))
      by (apply gap_down, plus2_above).
    apply (row_placed_contiguous data R T _ _ _ HK HR HT (eq_sym Hg) G);
      auto.
    apply mid_between, G.
  - rewrite computeNewSorts_same_key; [exact C|]. rewrite Ha, Ho. congruence.
Qed.

(** C1, as amended (exact arithmetic). With unique row identifiers,
    positive order keys and pairwise non-interleaved group key ranges, and
    with order keys computed without rounding, the collection returned by
    [computeNewSorts] again has pairwise non-interleaved group key ranges
    when both identifiers name groups, and when both name rows of one and
    the same group. *)
Theorem move_keeps_groups_contiguous (data : list RowItem) (a o : string) :
  uniqueKeys data -> positiveSorts data -> groupsContiguous data ->
  (exists g h, a = groupId g /\ o = groupId h)
  \/ (exists k t R T,
        a = rowId k /\ o = rowId t
        /\ find (fun x => String.eqb (key x) k) data = Some R
        /\ find (fun x => String.eqb (key x) t) data = Some T
        /\ groupKey R = groupKey T) ->
  groupsContiguous (computeNewSorts data a o).
Proof.
  intros HK HP C [(g & h & -> & ->) | (k & t & R & T & -> & -> & HR & HT & E)].
  - now apply group_onto_group_contiguous.
  - now apply row_within_group_contiguous with (R := R) (T := T).
Qed.

Lemma move_keeps_groups_contiguous_witness :
  groupsContiguous
    (computeNewSorts initialData (groupId "group-C") (groupId "group-A"))
  /\ groupsContiguous
       (computeNewSorts initialData (rowId "1-3") (rowId "1-1")).
Proof.
  assert (HK : uniqueKeys initialData)
    by (apply uniqueKeys_check; vm_compute; reflexivity).
  assert (HP : positiveSorts initialData)
    by (apply positiveSorts_check; vm_compute; reflexivity).
  assert (C : groupsContiguous initialData)
    by (apply groupsContiguous_check; vm_compute; reflexivity).
  split.
  - apply (move_keeps_groups_contiguous initialData
             (groupId "group-C") (groupId "group-A") HK HP C).
    left. exists "group-C", "group-A". split; reflexivity.
  - apply (move_keeps_groups_contiguous initialData
             (rowId "1-3") (rowId "1-1") HK HP C).
    right.
    exists "1-3", "1-1",
      (mkRow "1-3" "group-A" None "A" "产品 A3" 30 (Qc_of_Z 3)),
      (mkRow "1-1" "group-A" (Some 3%nat) "A" "产品 A1" 10 (Qc_of_Z 1)).
    repeat split; reflexivity.
Defined.

(** The seed collection has unique positive keys and non-interleaved
    groups, both identifiers resolve, and moving the row with key 2 onto
    the row with key 4 leaves group-A with keys 1, 3 and 9/2 around
    group-B's key 4. *)
Lemma row_move_breaks_groups_contiguous :
  uniqueSorts initialData /\ positiveSorts initialData
  /\ groupsContiguous initialData
  /\ getSortForId initialData (rowId "1-2") false = Some (Qc_of_Z 2)
  /\ getSortForId initialData (rowId "2-1") false = Some (Qc_of_Z 4)
  /\ ~ groupsContiguous
         (computeNewSorts initialData (rowId "1-2") (rowId "2-1")).
Proof.
  split; [apply uniqueSorts_check; vm_compute; reflexivity|].
  split; [apply positiveSorts_check; vm_compute; reflexivity|].
  split; [apply groupsContiguous_check; vm_compute; reflexivity|].
  split; [reflexivity|]. split; [reflexivity|].
  rewrite seed_row_move_value. intros C.
  assert (Hne : "group-A" <> "group-B") by discriminate.
  destruct (C "group-A" "group-B" Hne) as [B | B].
  - specialize (B (mkRow "1-2" "group-A" None "A" "产品 A2" 20 (Q2Qc (9 # 2)))
                  (mkRow "2-1" "group-B" (Some 2%nat) "B" "产品 B1" 5 (Qc_of_Z 4))).
    simpl in B. assert (X : Q2Qc (9 # 2) < Qc_of_Z 4) by (apply B; tauto).
    vm_compute in X. discriminate X.
  - specialize (B (mkRow "2-1" "group-B" (Some 2%nat) "B" "产品 B1" 5 (Qc_of_Z 4))
                  (mkRow "1-1" "group-A" (Some 3%nat) "A" "产品 A1" 10 (Qc_of_Z 1))).
    simpl in B. assert (X : Qc_of_Z 4 < Qc_of_Z 1) by (apply B; tauto).
    vm_compute in X. discriminate X.
Qed.

(** ** Block move of a group *)

Lemma members_updateGroupSortFrom (data : list RowItem) (g : string) (up JQ : Qc) :
  forall idx,
  map sort (members (updateGroupSortFrom idx data g up JQ) g)
  = map (fun i => up + JQ * Qc_of_nat i)
      (seq idx (List.length (members data g)))
  /\ map key (members (updateGroupSortFrom idx data g up JQ) g)
     = map key (members data g).
Proof.
  unfold members.
  induction data as [|r t IH]; intros idx; simpl; [split; reflexivity|].
  destruct (String.eqb (groupKey r) g) eqn:E; simpl; rewrite E; simpl.
  - destruct (IH (S idx)) as [H1 H2]. now rewrite H1, H2.
  - apply IH.
Qed.

Lemma filter_sorted (p : RowItem -> bool) (l : list RowItem) :
  sortedAscending l -> sortedAscending (filter p l).
Proof.
  induction l as [|r t IH]; simpl; [trivial|].
  intros [H1 H2]. destruct (p r); simpl; [|now apply IH].
  split; [|now apply IH].
  apply Forall_forall. intros x Hx. apply filter_In in Hx.
  rewrite Forall_forall in H1. apply H1, Hx.
Qed.

Lemma filter_unique (p : RowItem -> bool) (l : list RowItem) :
  uniqueSorts l -> uniqueSorts (filter p l).
Proof.
  unfold uniqueSorts. induction l as [|r t IH]; simpl; [trivial|].
  intros H. inversion H as [|? ? Hr Ht]; subst.
  destruct (p r); simpl; [|now apply IH].
  constructor; [|now apply IH].
  intros Hin. apply Hr. apply in_map_iff in Hin.
  destruct Hin as (x & Hx & Hin). apply filter_In in Hin.
  rewrite <- Hx. apply in_map. tauto.
Qed.

Lemma sorted_unique_strict (l : list RowItem) :
  sortedAscending l -> uniqueSorts l ->
  forall i j a b, (i < j)%nat ->
    nth_error l i = Some a -> nth_error l j = Some b -> sort a < sort b.
Proof.
  unfold uniqueSorts.
  induction l as [|r t IH]; intros HS HU i j a b Hij Ha Hb.
  - destruct i; discriminate.
  - destruct HS as [H1 H2]. inversion HU as [|? ? Hr Ht]; subst.
    destruct j as [|j]; [lia|]. simpl in Hb.
    destruct i as [|i]; simpl in Ha.
    + injection Ha as ->. apply nth_error_In in Hb.
      rewrite Forall_forall in H1.
      destruct (Qcle_lt_or_eq _ _ (H1 b Hb)) as [Hlt | Heq]; [exact Hlt|].
      exfalso. apply Hr. rewrite Heq. now apply in_map.
    + apply (IH H2 Ht i j); auto. lia.
Qed.

Lemma spaced_strict (up down : Qc) (n : nat) (l : list RowItem) :
  up < down ->
  map sort l
  = map (fun i => up + (down - up) / (Qc_of_nat n + 1) * Qc_of_nat i)
      (seq 1 (List.length l)) ->
  forall i j a b, (i < j)%nat ->
    nth_error l i = Some a -> nth_error l j = Some b -> sort a < sort b.
Proof.
  intros Hlt E i j a b Hij Ha Hb.
  assert (Hj : (j < List.length l)%nat)
    by (apply nth_error_Some; congruence).
  assert (V : forall m x, (m < List.length l)%nat -> nth_error l m = Some x ->
            sort x = up + (down - up) / (Qc_of_nat n + 1) * Qc_of_nat (1 + m)).
  { intros m x Hm Hx.
    pose proof (map_nth_error sort m l Hx) as Y. rewrite E in Y.
    rewrite nth_error_map, nth_error_seq in Y.
    destruct (Nat.ltb_spec m (List.length l)) as [_ | ?]; [|lia].
    simpl in Y |- *. congruence. }
  rewrite (V i a), (V j b); auto; [|lia].
  apply step_mono; [exact Hlt | lia].
Qed.

Lemma strict_orderPreserved (old new : list RowItem) :
  (forall i j a b, (i < j)%nat ->
     nth_error old i = Some a -> nth_error old j = Some b -> sort a < sort b) ->
  (forall i j a b, (i < j)%nat ->
     nth_error new i = Some a -> nth_error new j = Some b -> sort a < sort b) ->
  orderPreserved old new.
Proof.
  intros Ho Hn i j a b a' b' Ha Hb Ha' Hb'.
  destruct (Nat.lt_trichotomy i j) as [Hij | [-> | Hji]].
  - split; intros _; eauto.
  - assert (a = b) by congruence. assert (a' = b') by congruence. subst.
    split; intros H; exfalso; exact (Qclt_irrefl _ H).
  - assert (X : sort b < sort a) by eauto.
    assert (X' : sort b' < sort a') by eauto.
    split; intros H; exfalso; eapply Qclt_asym; eassumption.
Qed.

Lemma block_move_spec (data : list RowItem) (g : string) (up down : Qc) :
  up < down -> sortedAscending data -> uniqueSorts data ->
  let n := List.length (members data g) in
  let result :=
    updateGroupSort data g up ((down - up) / (Qc_of_nat n + 1)) in
  map sort (members result g)
  = map (fun i => up + Qc_of_nat i * (down - up) / (Qc_of_nat n + 1))
      (seq 1 n)
  /\ Forall (fun r => up < sort r < down) (members result g)
  /\ map key (members result g) = map key (members data g)
  /\ orderPreserved (members data g) (members result g).
Proof.
  intros Hlt HS HU n result.
  destruct (members_updateGroupSortFrom data g up
              ((down - up) / (Qc_of_nat n + 1)) 1) as [E1 E2].
  fold n in E1. fold (updateGroupSort data g up
                        ((down - up) / (Qc_of_nat n + 1))) in E1, E2.
  fold result in E1, E2.
  assert (L : List.length (members result g) = n).
  { rewrite <- (length_map key), E2, length_map. reflexivity. }
  split; [|split; [|split]].
  - rewrite E1. apply map_ext. intros i. apply step_formula.
  - apply Forall_forall. intros r Hr. apply members_In in Hr.
    destruct Hr as [Hr Hg]. apply updateGroupSort_In in Hr; [|exact Hlt].
    destruct Hr as [[_ Hr] | [_ Hr]]; [congruence | exact Hr].
  - exact E2.
  - apply strict_orderPreserved.
    + apply sorted_unique_strict.
      * apply filter_sorted, HS.
      * apply filter_unique, HU.
    + apply (spaced_strict up down n); [exact Hlt|]. now rewrite L.
Qed.

(** C4, as amended (exact arithmetic). With order keys computed without
    rounding, for a collection sorted ascending by its strictly unique,
    positive order keys, when a group of [n] members is moved
    (active names the group, over resolves, the two representative keys
    differ), with [up] and [down] the resolved boundary keys, the members'
    new keys are [up + i * (down - up) / (n + 1)] for [i = 1..n] in
    collection order; they lie strictly between [up] and [down], and the
    members compare by new key exactly as they compare by old key. *)
Theorem group_move_even_spacing
  (data : list RowItem) (g o : string) (sa so : Qc) :
  sortedAscending data -> uniqueSorts data -> positiveSorts data ->
  getSortForId data (groupId g) false = Some sa ->
  getSortForId data o false = Some so ->
  sa <> so ->
  let n := List.length (members data g) in
  let up := if Qcltb so sa
            then nullish (findPrevSort data so) 0
            else toNumber (getSortForId data o true) in
  let down := if Qcltb so sa
              then so
              else nullish (findNextSort data up) (up + Qc_of_nat n + 1) in
  let result := computeNewSorts data (groupId g) o in
  up < down
  /\ map sort (members result g)
     = map (fun i => up + Qc_of_nat i * (down - up) / (Qc_of_nat n + 1))
         (seq 1 n)
  /\ Forall (fun r => up < sort r < down) (members result g)
  /\ map key (members result g) = map key (members data g)
  /\ orderPreserved (members data g) (members result g).
Proof.
  intros HS HU HP Ha Ho Hne n up down result.
  destruct (Qc_dec so sa) as [[Hlt | Hlt] | Heq]; [| |congruence].
  - assert (E : Qcltb so sa = true) by now apply Qcltb_lt.
    subst up down result. rewrite E.
    rewrite (computeNewSorts_up data _ _ sa so Ha Ho Hlt). cbv zeta.
    rewrite startsWith_group_row, startsWith_group, slice_group.
    simpl andb. cbv iota.
    assert (G : nullish (findPrevSort data so) 0 < so).
    { apply gap_up. destruct (getSortForId_In _ _ _ _ Ho) as (r & Hr & <-).
      now apply positive_In with data. }
    split; [exact G|]. now apply block_move_spec.
  - assert (E : Qcltb so sa = false)
      by (apply Qcltb_nlt, Qclt_le_weak, Hlt).
    destruct (getSortForId_end _ _ _ Ho) as (u & Hu & _).
    subst up down result. rewrite E, Hu. simpl toNumber.
    rewrite (computeNewSorts_down data _ _ sa so u Ha Ho Hlt Hu). cbv zeta.
    rewrite startsWith_group_row, startsWith_group, slice_group.
    simpl andb. cbv iota. fold n.
    assert (G : u < nullish (findNextSort data u) (u + Qc_of_nat n + 1))
      by (apply gap_down, plusn1_above).
    split; [exact G|]. now apply block_move_spec.
Qed.

Lemma group_move_even_spacing_witness :
  orderPreserved (members initialData "group-A")
    (members
       (computeNewSorts initialData (groupId "group-A") (groupId "group-C"))
       "group-A").
Proof.
  assert (Hne : Qc_of_Z 1 <> Qc_of_Z 6).
  { intros H. apply (f_equal this) in H. vm_compute in H. discriminate H. }
  apply (group_move_even_spacing initialData "group-A" (groupId "group-C")
           (Qc_of_Z 1) (Qc_of_Z 6)).
  - apply sortedAscending_check. vm_compute. reflexivity.
  - apply uniqueSorts_check. vm_compute. reflexivity.
  - apply positiveSorts_check. vm_compute. reflexivity.
  - reflexivity.
  - reflexivity.
  - exact Hne.
Defined.

Lemma unsorted_move_value :
  computeNewSorts unsortedData (groupId "G") (groupId "H")
  = [ mkRow "a" "G" (Some 2%nat) "G" "a" 1 (Qc_of_Z 4);
      mkRow "b" "G" None "G" "b" 1 (Qc_of_Z 5);
      mkRow "c" "H" (Some 1%nat) "H" "c" 1 (Qc_of_Z 3) ].
Proof. apply rowsEqb_eq. vm_compute. reflexivity. Qed.

(** [unsortedData] has unique positive keys and contiguous groups, both
    identifiers resolve with different keys, and moving group G after
    group H gives its members the keys 4 and 5 in collection order,
    reversing their order by old key (2 and 1). *)
Lemma unsorted_group_move_reverses_order :
  uniqueSorts unsortedData /\ positiveSorts unsortedData
  /\ groupsContiguous unsortedData
  /\ getSortForId unsortedData (groupId "G") false = Some (Qc_of_Z 1)
  /\ getSortForId unsortedData (groupId "H") false = Some (Qc_of_Z 3)
  /\ ~ orderPreserved (members unsortedData "G")
         (members (computeNewSorts unsortedData (groupId "G") (groupId "H"))
            "G").
Proof.
  split; [apply uniqueSorts_check; vm_compute; reflexivity|].
  split; [apply positiveSorts_check; vm_compute; reflexivity|].
  split; [apply groupsContiguous_check; vm_compute; reflexivity|].
  split; [reflexivity|]. split; [reflexivity|].
  rewrite unsorted_move_value. intros P.
  specialize (P 0%nat 1%nat _ _ _ _ eq_refl eq_refl eq_refl eq_refl).
  simpl in P. destruct P as [_ P].
  assert (X : Qc_of_Z 2 < Qc_of_Z 1) by (apply P; reflexivity).
  vm_compute in X. discriminate X.
Qed.

(** ** Grouping index *)

Lemma members_app (l1 l2 : list RowItem) (g : string) :
  members (l1 ++ l2) g = members l1 g ++ members l2 g.
Proof. apply filter_app. Qed.

Lemma members_single (r : RowItem) (g : string) :
  members [r] g = if String.eqb (groupKey r) g then [r] else [].
Proof. unfold members. simpl. destruct (String.eqb (groupKey r) g); reflexivity. Qed.

Lemma mapPush_fst (m : GroupMap) (r : RowItem) :
  (In (groupKey r) (map fst m) /\ map fst (mapPush m r) = map fst m)
  \/ (~ In (groupKey r) (map fst m)
      /\ map fst (mapPush m r) = map fst m ++ [groupKey r]).
Proof.
  induction m as [|[g0 rows0] t IH]; simpl.
  - right. split; [tauto | reflexivity].
  - destruct (String.eqb g0 (groupKey r)) eqn:E; simpl.
    + apply String.eqb_eq in E. left. auto.
    + apply String.eqb_neq in E.
      destruct IH as [[H1 H2] | [H1 H2]]; rewrite H2.
      * left. auto.
      * right. split; [|reflexivity]. intros [H | H]; auto.
Qed.

Lemma mapPush_concat (m : GroupMap) (r : RowItem) :
  Permutation (List.concat (map snd (mapPush m r))) (r :: List.concat (map snd m)).
Proof.
  induction m as [|[g0 rows0] t IH]; simpl; [apply Permutation_refl|].
  destruct (String.eqb g0 (groupKey r)); simpl.
  - rewrite <- app_assoc. simpl.
    apply Permutation_sym, (Permutation_middle rows0 (List.concat (map snd t)) r).
  - eapply perm_trans; [apply Permutation_app_head, IH|].
    apply Permutation_sym, (Permutation_middle rows0 (List.concat (map snd t)) r).
Qed.

Lemma fold_mapPush_concat (data : list RowItem) :
  forall m,
  Permutation (List.concat (map snd (fold_left mapPush data m)))
              (List.concat (map snd m) ++ data).
Proof.
  induction data as [|r t IH]; intros m; simpl.
  - rewrite app_nil_r. apply Permutation_refl.
  - eapply perm_trans; [apply IH|].
    eapply perm_trans; [apply Permutation_app_tail, mapPush_concat|].
    simpl. apply Permutation_middle.
Qed.

Section GroupMapInvariant.

Variables (pre : list RowItem) (r : RowItem).

Lemma mapPush_entries (m : GroupMap) :
  NoDup (map fst m) ->
  (forall g rows, In (g, rows) m -> rows = members pre g /\ rows <> []) ->
  (~ In (groupKey r) (map fst m) -> members pre (groupKey r) = []) ->
  forall g rows, In (g, rows) (mapPush m r) ->
    rows = members (pre ++ [r]) g /\ rows <> [].
Proof.
  induction m as [|[g0 rows0] t IH]; simpl; intros ND P Hnew g rows Hin.
  - destruct Hin as [Hin | []]. injection Hin as <- <-.
    rewrite members_app, members_single, String.eqb_refl, Hnew; [|tauto].
    split; [reflexivity | discriminate].
  - inversion ND as [|? ? Hg0 NDt]; subst.
    destruct (P g0 rows0 (or_introl eq_refl)) as [E0 N0].
    destruct (String.eqb g0 (groupKey r)) eqn:E.
    + apply String.eqb_eq in E. destruct Hin as [Hin | Hin].
      * injection Hin as <- <-.
        rewrite members_app, members_single, <- E, String.eqb_refl, <- E0.
        split; [reflexivity|]. destruct rows0; discriminate.
      * destruct (P g rows (or_intror Hin)) as [Eg Ng].
        assert (Hne : g <> g0).
        { intros ->. apply Hg0. apply (in_map fst) in Hin. exact Hin. }
        rewrite members_app, members_single, <- E.
        assert (X : String.eqb g0 g = false) by (apply String.eqb_neq; auto).
        rewrite X, app_nil_r. auto.
    + apply String.eqb_neq in E. destruct Hin as [Hin | Hin].
      * injection Hin as <- <-.
        rewrite members_app, members_single.
        assert (X : String.eqb (groupKey r) g0 = false)
          by (apply String.eqb_neq; auto).
        rewrite X, app_nil_r. auto.
      * apply IH; auto.
        intros Hn. apply Hnew. intros [H | H]; auto.
Qed.

End GroupMapInvariant.

Lemma fold_mapPush_invariant (data : list RowItem) :
  forall pre m,
  NoDup (map fst m) ->
  (forall g rows, In (g, rows) m -> rows = members pre g /\ rows <> []) ->
  (forall g, ~ In g (map fst m) -> members pre g = []) ->
  let m' := fold_left mapPush data m in
  NoDup (map fst m')
  /\ (forall g rows, In (g, rows) m' ->
        rows = members (pre ++ data) g /\ rows <> [])
  /\ (forall g, ~ In g (map fst m') -> members (pre ++ data) g = []).
Proof.
  induction data as [|r t IH]; intros pre m ND P Q; simpl.
  - rewrite app_nil_r. auto.
  - replace (pre ++ r :: t) with ((pre ++ [r]) ++ t)
      by (rewrite <- app_assoc; reflexivity).
    apply IH.
    + destruct (mapPush_fst m r) as [[_ E] | [Hn E]]; rewrite E; [exact ND|].
      apply NoDup_app; [exact ND | repeat constructor; tauto |].
      intros x Hx [<- | []]. contradiction.
    + apply mapPush_entries; auto.
    + intros g Hg.
      assert (Hg' : ~ In g (map fst m) /\ g <> groupKey r).
      { destruct (mapPush_fst m r) as [[Hi E] | [Hn E]]; rewrite E in Hg.
        - split; [exact Hg|]. intros ->. contradiction.
        - rewrite in_app_iff in Hg. simpl in Hg. split; [tauto|].
          intros ->. tauto. }
      destruct Hg' as [H1 H2].
      rewrite members_app, members_single, (Q g H1).
      assert (X : String.eqb (groupKey r) g = false)
        by (apply String.eqb_neq; auto).
      now rewrite X.
Qed.

Lemma buildGroups_invariant (data : list RowItem) :
  let m := fold_left mapPush data [] in
  NoDup (map fst m)
  /\ (forall g rows, In (g, rows) m -> rows = members data g /\ rows <> [])
  /\ (forall g, ~ In g (map fst m) -> members data g = []).
Proof.
  apply (fold_mapPush_invariant data [] []).
  - constructor.
  - intros g rows [].
  - reflexivity.
Qed.

(** ** Group-size recompute *)

Lemma mark_tail (size k : nat) (l : list RowItem) :
  mapWithIndexFrom (S k)
    (fun r idx => setGroupSize r (if Nat.eqb idx 0 then size else 0%nat)) l
  = map (fun r => setGroupSize r 0) l.
Proof.
  revert k. induction l as [|x t IH]; intros k; simpl; [reflexivity|].
  now rewrite IH.
Qed.

Lemma mark_cons (size : nat) (x : RowItem) (t : list RowItem) :
  mapWithIndexFrom 0
    (fun r idx => setGroupSize r (if Nat.eqb idx 0 then size else 0%nat))
    (x :: t)
  = setGroupSize x size :: map (fun r => setGroupSize r 0) t.
Proof. simpl. now rewrite mark_tail. Qed.

Lemma mark_without (size : nat) (l : list RowItem) :
  map withoutGroupSize
    (mapWithIndexFrom 0
       (fun r idx => setGroupSize r (if Nat.eqb idx 0 then size else 0%nat)) l)
  = map withoutGroupSize l.
Proof.
  destruct l as [|x t]; [reflexivity|].
  rewrite mark_cons. simpl. f_equal. rewrite map_map. reflexivity.
Qed.

Lemma recompute_without (m : GroupMap) :
  Permutation
    (map withoutGroupSize
       (flat_map
          (fun g =>
             mapWithIndexFrom 0
               (fun r idx =>
                  setGroupSize r
                    (if Nat.eqb idx 0 then List.length (snd g) else 0%nat))
               (snd g))
          (map (fun e => (fst e, sortBySort (snd e))) m)))
    (map withoutGroupSize (List.concat (map snd m))).
Proof.
  induction m as [|e t IH]; simpl; [constructor|].
  rewrite !map_app. apply Permutation_app; [|exact IH].
  rewrite mark_without. apply Permutation_map, Permutation_sym, sortBySort_perm.
Qed.

Lemma recomputeGroupSizes_without (data : list RowItem) :
  Permutation (map withoutGroupSize (recomputeGroupSizes data))
              (map withoutGroupSize data).
Proof.
  unfold recomputeGroupSizes, buildGroups.
  eapply perm_trans; [apply recompute_without|].
  apply Permutation_map. apply (fold_mapPush_concat data []).
Qed.

Lemma recomputeGroupSizes_In (data : list RowItem) (r : RowItem) :
  In r (recomputeGroupSizes data) <->
  exists g rows,
    In (g, rows) (fold_left mapPush data [])
    /\ In r (mapWithIndexFrom 0
               (fun x idx =>
                  setGroupSize x
                    (if Nat.eqb idx 0
                     then List.length (sortBySort rows) else 0%nat))
               (sortBySort rows)).
Proof.
  unfold recomputeGroupSizes, buildGroups. rewrite in_flat_map. split.
  - intros (e & He & Hr). apply in_map_iff in He.
    destruct He as ([g rows] & <- & He). exists g, rows. auto.
  - intros (g & rows & He & Hr). exists (g, sortBySort rows). split; [|exact Hr].
    apply in_map_iff. exists (g, rows). auto.
Qed.

(** C8. With strictly unique order keys, [recomputeGroupSizes] returns the
    same rows with every field other than [groupSize] unaltered, and in
    every group exactly one member, the one with the smallest order key,
    carries the group's (nonzero) member count as [groupSize] while every
    other member of the group carries 0. *)
Theorem recomputeGroupSizes_headers (data : list RowItem) :
  uniqueSorts data ->
  let out := recomputeGroupSizes data in
  Permutation (map withoutGroupSize out) (map withoutGroupSize data)
  /\ uniqueSorts out
  /\ forall g, members data g <> [] ->
       exists h,
         In h out /\ groupKey h = g
         /\ groupSize h = Some (List.length (members data g))
         /\ List.length (members data g) <> 0%nat
         /\ (forall m, In m data -> groupKey m = g -> sort h <= sort m)
         /\ (forall r, In r out -> groupKey r = g -> r <> h ->
               groupSize r = Some 0%nat).
Proof.
  intros HU out.
  pose proof (recomputeGroupSizes_without data) as HP. fold out in HP.
  split; [exact HP|]. split.
  { unfold uniqueSorts in *.
    apply (Permutation_map (fun t => snd t)) in HP.
    rewrite !map_map in HP. simpl in HP.
    eapply Permutation_NoDup; [apply Permutation_sym, HP | exact HU]. }
  intros g Hg.
  destruct (buildGroups_invariant data) as (ND & P & Q).
  destruct (in_dec string_dec g (map fst (fold_left mapPush data [])))
    as [Hin | Hout]; [|exfalso; exact (Hg (Q g Hout))].
  apply in_map_iff in Hin. destruct Hin as ([g' rows] & Eg & Hin).
  simpl in Eg. subst g'. destruct (P g rows Hin) as [Erows _].
  destruct (sortBySort rows) as [|h0 rest] eqn:Es.
  { apply sortBySort_nil in Es. congruence. }
  assert (Hlen : List.length (h0 :: rest) = List.length (members data g)).
  { rewrite <- Es, sortBySort_length, Erows. reflexivity. }
  destruct (sortBySort_head _ _ _ Es) as [Hh0 Hmin].
  rewrite Erows in Hh0, Hmin. apply members_In in Hh0.
  exists (setGroupSize h0 (List.length (h0 :: rest))).
  split; [|split; [|split; [|split; [|split]]]].
  - apply recomputeGroupSizes_In. exists g, rows. split; [exact Hin|].
    rewrite Es, mark_cons. now left.
  - simpl. tauto.
  - unfold setGroupSize. cbn [groupSize]. f_equal. exact Hlen.
  - rewrite <- Hlen. discriminate.
  - intros m Hm Hmg. simpl sort. apply Hmin, members_In. auto.
  - intros r Hr Hrg Hne. apply recomputeGroupSizes_In in Hr.
    destruct Hr as (g2 & rows2 & Hin2 & Hr).
    destruct (P g2 rows2 Hin2) as [Erows2 _].
    assert (Eg : g2 = g).
    { destruct (sortBySort rows2) as [|x t] eqn:Es2; [destruct Hr|].
      rewrite mark_cons in Hr.
      assert (Hx : exists y, In y rows2 /\ groupKey r = groupKey y).
      { destruct Hr as [<- | Hr].
        - exists x. split; [|reflexivity].
          apply sortBySort_In. rewrite Es2. now left.
        - apply in_map_iff in Hr. destruct Hr as (y & <- & Hy).
          exists y. split; [|reflexivity].
          apply sortBySort_In. rewrite Es2. now right. }
      destruct Hx as (y & Hy & Ey). rewrite Erows2 in Hy.
      apply members_In in Hy. destruct Hy as [_ Hy]. congruence. }
    subst g2. assert (E2 : rows2 = rows) by congruence.
    rewrite E2, Es, mark_cons in Hr. destruct Hr as [<- | Hr].
    + exfalso. now apply Hne.
    + apply in_map_iff in Hr. destruct Hr as (y & <- & _). reflexivity.
Qed.

Lemma recomputeGroupSizes_headers_witness :
  Permutation (map withoutGroupSize (recomputeGroupSizes unsortedData))
              (map withoutGroupSize unsortedData).
Proof.
  apply (recomputeGroupSizes_headers unsortedData).
  apply uniqueSorts_check. vm_compute. reflexivity.
Defined.

(** ** Evaluation on the seed collection *)

Example recomputeGroupSizes_seed :
  recomputeGroupSizes initialData
  = [ mkRow "1-1" "group-A" (Some 3%nat) "A" "产品 A1" 10 (Qc_of_Z 1);
      mkRow "1-2" "group-A" (Some 0%nat) "A" "产品 A2" 20 (Qc_of_Z 2);
      mkRow "1-3" "group-A" (Some 0%nat) "A" "产品 A3" 30 (Qc_of_Z 3);
      mkRow "2-1" "group-B" (Some 2%nat) "B" "产品 B1" 5 (Qc_of_Z 4);
      mkRow "2-2" "group-B" (Some 0%nat) "B" "产品 B2" 15 (Qc_of_Z 5);
      mkRow "3-1" "group-C" (Some 1%nat) "C" "产品 C1" 40 (Qc_of_Z 6) ].
Proof. apply rowsEqb_eq. vm_compute. reflexivity. Qed.

Example recomputeGroupSizes_unsorted :
  recomputeGroupSizes unsortedData
  = [ mkRow "b" "G" (Some 2%nat) "G" "b" 1 (Qc_of_Z 1);
      mkRow "a" "G" (Some 0%nat) "G" "a" 1 (Qc_of_Z 2);
      mkRow "c" "H" (Some 1%nat) "H" "c" 1 (Qc_of_Z 3) ].
Proof. apply rowsEqb_eq. vm_compute. reflexivity. Qed.

Example seed_move_groupA_after_groupC :
  map sort (computeNewSorts initialData (groupId "group-A") (groupId "group-C"))
  = [Qc_of_Z 7; Qc_of_Z 8; Qc_of_Z 9; Qc_of_Z 4; Qc_of_Z 5; Qc_of_Z 6].
Proof.
  assert (E : forall l1 l2 : list Qc, map this l1 = map this l2 -> l1 = l2).
  { induction l1 as [|x t IH]; intros [|y t2] H; simpl in H;
      try discriminate; [reflexivity|].
    injection H as H1 H2. f_equal; [now apply Qc_decomp | now apply IH]. }
  apply E. vm_compute. reflexivity.
Qed.

Example seed_neighbours :
  findPrevSort initialData (Qc_of_Z 4) = Some (Qc_of_Z 3)
  /\ findNextSort initialData (Qc_of_Z 4) = Some (Qc_of_Z 5)
  /\ findNextSort initialData (Qc_of_Z 6) = None
  /\ getSortForId initialData (groupId "group-A") true = Some (Qc_of_Z 3)
  /\ getSortForId initialData (groupId "group-Z") false = None
  /\ getSortForId initialData "1-1" false = None.
Proof. repeat split; reflexivity. Qed.

(** * Further properties of the component *)

(** ** Neighbouring order keys *)

(** X1. [findPrevSort] returns the largest order key of the collection that
    is strictly below the given number, and nothing exactly when no key of
    the collection is below it. *)
Theorem findPrevSort_largest_below (data : list RowItem) (s : Qc) :
  match findPrevSort data s with
  | Some p =>
      (exists r, In r data /\ sort r = p)
      /\ p < s
      /\ forall x, In x data -> sort x < s -> sort x <= p
  | None => forall x, In x data -> s <= sort x
  end.
Proof.
  destruct (findPrevSort data s) as [p|] eqn:E.
  - apply findPrevSort_Some, E.
  - apply findPrevSort_None, E.
Qed.

(** X2. [findNextSort] returns the smallest order key of the collection that
    is strictly above the given number, and nothing exactly when no key of
    the collection is above it. *)
Theorem findNextSort_smallest_above (data : list RowItem) (s : Qc) :
  match findNextSort data s with
  | Some n =>
      (exists r, In r data /\ sort r = n)
      /\ s < n
      /\ forall x, In x data -> s < sort x -> n <= sort x
  | None => forall x, In x data -> sort x <= s
  end.
Proof.
  destruct (findNextSort data s) as [n|] eqn:E.
  - apply findNextSort_Some, E.
  - apply findNextSort_None, E.
Qed.

(** ** The sorted view *)

Lemma insertBySort_least (r : RowItem) (l : list RowItem) :
  Forall (fun x => sort r <= sort x) l -> insertBySort r l = r :: l.
Proof.
  destruct l as [|x t]; simpl; [reflexivity|].
  intros H. inversion H as [|? ? Hx _]; subst.
  apply Qcleb_le in Hx. now rewrite Hx.
Qed.

Lemma sortBySort_sorted_id (l : list RowItem) :
  sortedAscending l -> sortBySort l = l.
Proof.
  induction l as [|r t IH]; simpl; [reflexivity|].
  intros [H1 H2]. rewrite (IH H2). now apply insertBySort_least.
Qed.

(** X3. The sorted view of the data source is in ascending key order and
    holds exactly the rows of the data source; a data source that is
    already in ascending key order is its own sorted view. *)
Theorem sortedData_sorted_permutation (ds : list RowItem) :
  sortedAscending (sortedData ds)
  /\ Permutation ds (sortedData ds)
  /\ (sortedAscending ds -> sortedData ds = ds)
  /\ sortedData (sortedData ds) = sortedData ds.
Proof.
  unfold sortedData. split; [apply sortBySort_sorted|].
  split; [apply sortBySort_perm|].
  split; [apply sortBySort_sorted_id|].
  apply sortBySort_sorted_id, sortBySort_sorted.
Qed.

(** ** Resolving a group identifier *)

(** X4. A group identifier resolves exactly when the group has a member; it
    then resolves to the smallest member key, and with [isTargetingEnd] to
    the largest member key. *)
Theorem getSortForId_group_range (data : list RowItem) (g : string) :
  match getSortForId data (groupId g) false,
        getSortForId data (groupId g) true with
  | Some lo, Some hi =>
      (exists r, In r data /\ groupKey r = g /\ sort r = lo)
      /\ (exists r, In r data /\ groupKey r = g /\ sort r = hi)
      /\ forall x, In x data -> groupKey x = g -> lo <= sort x <= hi
  | None, None => members data g = []
  | _, _ => False
  end.
Proof.
  destruct (getSortForId data (groupId g) false) as [lo|] eqn:E1.
  - destruct (getSortForId_end _ _ _ E1) as (hi & E2 & _). rewrite E2.
    apply group_first_spec in E1. apply group_last_spec in E2.
    destruct E1 as [H1 M1], E2 as [H2 M2]. repeat split; auto.
  - rewrite getSortForId_groupId_first in E1.
    rewrite getSortForId_groupId_last.
    destruct (sortBySort (members data g)) as [|r t] eqn:E; [|discriminate].
    simpl. apply sortBySort_nil, E.
Qed.

(** ** The grouping index *)

Lemma buildGroups_In (data : list RowItem) (g : string) (rows : list RowItem) :
  In (g, rows) (buildGroups data) <->
  exists rows0, In (g, rows0) (fold_left mapPush data [])
                /\ rows = sortBySort rows0.
Proof.
  unfold buildGroups. rewrite in_map_iff. split.
  - intros ([g0 rows0] & E & H). simpl in E. injection E as <- <-. eauto.
  - intros (rows0 & H & ->). exists (g, rows0). auto.
Qed.

Lemma buildGroups_fst (data : list RowItem) :
  map fst (buildGroups data) = map fst (fold_left mapPush data []).
Proof. unfold buildGroups. rewrite map_map. reflexivity. Qed.

Lemma buildGroups_facts (data : list RowItem) :
  NoDup (map fst (buildGroups data))
  /\ (forall g, In g (map fst (buildGroups data)) <->
                exists r, In r data /\ groupKey r = g)
  /\ (forall g rows, In (g, rows) (buildGroups data) ->
        rows = sortBySort (members data g) /\ rows <> []).
Proof.
  destruct (buildGroups_invariant data) as (ND & P & Q).
  rewrite buildGroups_fst. split; [exact ND|]. split.
  - intros g. split.
    + intros Hin. apply in_map_iff in Hin.
      destruct Hin as ([g0 rows0] & E & Hin). simpl in E. subst g0.
      destruct (P g rows0 Hin) as [E N].
      destruct rows0 as [|r t]; [congruence|]. exists r.
      apply members_In. rewrite <- E. now left.
    + intros (r & Hr & Hg).
      destruct (in_dec string_dec g (map fst (fold_left mapPush data [])))
        as [Hin | Hout]; [exact Hin|].
      exfalso. assert (X : In r (members data g)) by (apply members_In; auto).
      rewrite (Q g Hout) in X. exact X.
  - intros g rows Hin. apply buildGroups_In in Hin.
    destruct Hin as (rows0 & Hin & ->). destruct (P g rows0 Hin) as [E N].
    split; [now rewrite E|]. intros Hs. apply sortBySort_nil in Hs. auto.
Qed.

(** X6. [buildGroups] yields one entry per group key occurring in the
    collection, with pairwise distinct keys; an entry is never empty, its
    rows are in ascending order of their order keys, and they are exactly
    the rows of the collection that carry the entry's group key, each as
    often as it occurs. *)
Theorem buildGroups_partition (data : list RowItem) :
  NoDup (map fst (buildGroups data))
  /\ (forall g, In g (map fst (buildGroups data)) <->
                exists r, In r data /\ groupKey r = g)
  /\ (forall g rows, In (g, rows) (buildGroups data) ->
        rows <> []
        /\ sortedAscending rows
        /\ Permutation rows (filter (fun r => String.eqb (groupKey r) g) data)
        /\ (forall r, In r rows <-> In r data /\ groupKey r = g)).
Proof.
  destruct (buildGroups_facts data) as (ND & K & P).
  split; [exact ND|]. split; [exact K|].
  intros g rows H. destruct (P g rows H) as [E N].
  split; [exact N|]. rewrite E. split; [apply sortBySort_sorted|].
  split; [apply Permutation_sym, sortBySort_perm|].
  intros r. rewrite sortBySort_In. apply members_In.
Qed.

(** ** Identifiers offered to the drag layer *)

Lemma find_key_Some (data : list RowItem) (r : RowItem) :
  In r data ->
  exists r0, find (fun x => String.eqb (key x) (key r)) data = Some r0.
Proof.
  intros H. destruct (find _ data) as [r0|] eqn:E; [eauto|].
  exfalso. pose proof (find_none _ _ E r H) as X. simpl in X.
  rewrite String.eqb_refl in X. discriminate.
Qed.

(** X5. Every identifier in [sortableItems] resolves against the sorted
    view of the data source. *)
Theorem sortableItems_resolve (ds : list RowItem) (id : string) :
  In id (sortableItems ds) ->
  exists v, getSortForId (sortedData ds) id false = Some v.
Proof.
  unfold sortableItems. rewrite in_app_iff, !in_map_iff.
  intros [([g rows] & <- & Hin) | (r & <- & Hin)].
  - simpl. destruct (buildGroups_facts (sortedData ds)) as (_ & _ & P).
    destruct (P g rows Hin) as [E N].
    rewrite getSortForId_groupId_first, <- E.
    destruct rows as [|r t]; [congruence | eauto].
  - rewrite getSortForId_rowId.
    destruct (find_key_Some _ _ Hin) as (r0 & ->). eauto.
Qed.

Lemma sortableItems_resolve_witness :
  exists v,
    getSortForId (sortedData initialData) (groupId "group-B") false = Some v.
Proof.
  apply (sortableItems_resolve initialData (groupId "group-B")).
  vm_compute. tauto.
Defined.

(** ** Header bookkeeping after a recompute *)

Lemma mapWithIndexFrom_In (f : RowItem -> nat -> RowItem) (l : list RowItem) :
  forall k r, In r (mapWithIndexFrom k f l) ->
  exists x i, In x l /\ r = f x i.
Proof.
  induction l as [|x t IH]; simpl; intros k r H; [destruct H|].
  destruct H as [<- | H].
  - exists x, k. auto.
  - destruct (IH _ _ H) as (y & i & Hy & E). exists y, i. auto.
Qed.

Lemma recomputeGroupSizes_origin (data : list RowItem) (r : RowItem) :
  In r (recomputeGroupSizes data) ->
  exists x n, In x data /\ r = setGroupSize x n.
Proof.
  intros H. apply recomputeGroupSizes_In in H.
  destruct H as (g & rows & Hin & H).
  apply mapWithIndexFrom_In in H. destruct H as (x & i & Hx & ->).
  destruct (buildGroups_invariant data) as (_ & P & _).
  destruct (P g rows Hin) as [E _].
  apply (proj1 (sortBySort_In _ _)) in Hx. rewrite E in Hx. apply members_In in Hx. exists x. eexists. split; [tauto|].
  reflexivity.
Qed.

(** X7. After [recomputeGroupSizes] every row carries a defined
    [groupSize] (the count or 0), so [DraggableRow] treats every row as a
    group header and registers it under its group's identifier, never under
    a row identifier. *)
Theorem recomputeGroupSizes_all_headers (data : list RowItem) (r : RowItem) :
  In r (recomputeGroupSizes data) ->
  groupSize r <> None
  /\ isGroupHeader r = true
  /\ sortableId r = groupId (groupKey r).
Proof.
  intros H. apply recomputeGroupSizes_origin in H.
  destruct H as (x & n & _ & ->). unfold sortableId, isGroupHeader. simpl.
  repeat split. discriminate.
Qed.

Lemma recomputeGroupSizes_all_headers_witness :
  sortableId (mkRow "1-2" "group-A" (Some 0%nat) "A" "产品 A2" 20 (Qc_of_Z 2))
  = groupId "group-A".
Proof.
  apply (recomputeGroupSizes_all_headers initialData).
  rewrite recomputeGroupSizes_seed. simpl. tauto.
Defined.

Lemma mark_rowSpan (l : list RowItem) :
  list_sum
    (map rowSpan
       (mapWithIndexFrom 0
          (fun r idx =>
             setGroupSize r (if Nat.eqb idx 0 then List.length l else 0%nat))
          l))
  = List.length l.
Proof.
  destruct l as [|x t]; [reflexivity|]. rewrite mark_cons.
  cbn [map list_sum rowSpan setGroupSize groupSize]. rewrite map_map.
  assert (Z0 : forall u : list RowItem,
             list_sum (map (fun r => rowSpan (setGroupSize r 0)) u) = 0%nat).
  { induction u as [|y u IH]; simpl; [reflexivity | exact IH]. }
  change (Datatypes.length (x :: t)
          + list_sum (map (fun r => rowSpan (setGroupSize r 0)) t)
          = Datatypes.length (x :: t))%nat.
  rewrite Z0. lia.
Qed.

Lemma flat_map_rowSpan (m : GroupMap) :
  list_sum
    (map rowSpan
       (flat_map
          (fun g =>
             mapWithIndexFrom 0
               (fun r idx =>
                  setGroupSize r
                    (if Nat.eqb idx 0 then List.length (snd g) else 0%nat))
               (snd g))
          m))
  = List.length (List.concat (map snd m)).
Proof.
  induction m as [|e t IH]; simpl; [reflexivity|].
  rewrite map_app, list_sum_app, length_app, IH, mark_rowSpan. reflexivity.
Qed.

(** X8. After [recomputeGroupSizes] the row spans of the merged columns add
    up to the number of rows. *)
Theorem recomputeGroupSizes_rowSpan_total (data : list RowItem) :
  list_sum (map rowSpan (recomputeGroupSizes data)) = List.length data.
Proof.
  unfold recomputeGroupSizes. rewrite flat_map_rowSpan.
  unfold buildGroups. rewrite map_map. simpl.
  transitivity (List.length (List.concat (map snd (fold_left mapPush data [])))).
  - generalize (fold_left mapPush data []). intros m.
    induction m as [|e t IH]; simpl; [reflexivity|].
    rewrite !length_app, IH, sortBySort_length. reflexivity.
  - apply Permutation_length. apply (fold_mapPush_concat data []).
Qed.

(** ** Rebuilding the index from its own blocks *)

Lemma mapPush_new (m : GroupMap) (r : RowItem) :
  ~ In (groupKey r) (map fst m) -> mapPush m r = m ++ [(groupKey r, [r])].
Proof.
  induction m as [|[g0 rows0] t IH]; simpl; intros H; [reflexivity|].
  destruct (String.eqb g0 (groupKey r)) eqn:E.
  - apply String.eqb_eq in E. exfalso. auto.
  - f_equal. apply IH. auto.
Qed.

Lemma mapPush_last (m : GroupMap) (g : string) (acc : list RowItem)
  (r : RowItem) :
  ~ In g (map fst m) -> groupKey r = g ->
  mapPush (m ++ [(g, acc)]) r = m ++ [(g, acc ++ [r])].
Proof.
  intros H <-.
  induction m as [|[g0 rows0] t IH]; simpl.
  - now rewrite String.eqb_refl.
  - simpl in H. destruct (String.eqb g0 (groupKey r)) eqn:E.
    + apply String.eqb_eq in E. exfalso. auto.
    + f_equal. apply IH. auto.
Qed.

Lemma fold_block (rows : list RowItem) :
  forall (m : GroupMap) (g : string) (acc : list RowItem),
  ~ In g (map fst m) ->
  (forall r, In r rows -> groupKey r = g) ->
  fold_left mapPush rows (m ++ [(g, acc)]) = m ++ [(g, acc ++ rows)].
Proof.
  induction rows as [|r t IH]; intros m g acc Hg Hr; simpl.
  - now rewrite app_nil_r.
  - rewrite (mapPush_last m g acc r Hg) by (apply Hr; now left).
    rewrite IH; auto.
    + now rewrite <- app_assoc.
    + intros x Hx. apply Hr. now right.
Qed.

Lemma fold_blocks (m2 : GroupMap) :
  forall m1 : GroupMap,
  NoDup (map fst (m1 ++ m2)) ->
  (forall g rows, In (g, rows) m2 ->
     rows <> [] /\ forall r, In r rows -> groupKey r = g) ->
  fold_left mapPush (List.concat (map snd m2)) m1 = m1 ++ m2.
Proof.
  induction m2 as [|[g rows] t IH]; intros m1 ND P; simpl.
  - now rewrite app_nil_r.
  - destruct (P g rows (or_introl eq_refl)) as [N Hg].
    destruct rows as [|r rs]; [congruence|].
    assert (Hout : ~ In g (map fst m1)).
    { rewrite map_app in ND. simpl in ND. apply NoDup_remove_2 in ND.
      rewrite in_app_iff in ND. tauto. }
    rewrite fold_left_app. simpl.
    assert (Er : groupKey r = g) by (apply Hg; now left).
    rewrite <- Er in Hout. rewrite (mapPush_new m1 r Hout), Er.
    rewrite Er in Hout.
    rewrite (fold_block rs m1 g [r] Hout)
      by (intros x Hx; apply Hg; now right).
    simpl. rewrite IH.
    + now rewrite <- app_assoc.
    + now rewrite <- app_assoc.
    + intros g' rows' H. apply P. now right.
Qed.

Lemma sorted_by_sorts (l1 l2 : list RowItem) :
  map sort l1 = map sort l2 -> sortedAscending l1 -> sortedAscending l2.
Proof.
  revert l2. induction l1 as [|a t IH]; intros [|b t2] E; simpl in E;
    try discriminate; [trivial|].
  injection E as E1 E2. simpl. intros [H1 H2]. split; [|now apply IH].
  rewrite E1 in H1. clear - H1 E2.
  revert t2 E2. induction t as [|x t IH]; intros [|y t2] E; simpl in E;
    try discriminate; [constructor|].
  injection E as E1 E2. inversion H1 as [|? ? Hx Ht]; subst.
  constructor; [now rewrite <- E1 | now apply IH].
Qed.

Lemma mark_sorts (size : nat) (l : list RowItem) :
  map sort
    (mapWithIndexFrom 0
       (fun r idx => setGroupSize r (if Nat.eqb idx 0 then size else 0%nat)) l)
  = map sort l.
Proof.
  destruct l as [|x t]; [reflexivity|].
  rewrite mark_cons. simpl. f_equal. rewrite map_map. reflexivity.
Qed.

Lemma mark_length (size : nat) (l : list RowItem) :
  List.length
    (mapWithIndexFrom 0
       (fun r idx => setGroupSize r (if Nat.eqb idx 0 then size else 0%nat)) l)
  = List.length l.
Proof.
  rewrite <- (length_map sort), mark_sorts. apply length_map.
Qed.

Lemma mark_mark (s1 s2 : nat) (l : list RowItem) :
  mapWithIndexFrom 0
    (fun r idx => setGroupSize r (if Nat.eqb idx 0 then s2 else 0%nat))
    (mapWithIndexFrom 0
       (fun r idx => setGroupSize r (if Nat.eqb idx 0 then s1 else 0%nat)) l)
  = mapWithIndexFrom 0
      (fun r idx => setGroupSize r (if Nat.eqb idx 0 then s2 else 0%nat)) l.
Proof.
  destruct l as [|x t]; [reflexivity|].
  rewrite !mark_cons. f_equal. rewrite map_map. reflexivity.
Qed.

(** The index of a collection that is the concatenation of sorted,
    non-empty blocks with pairwise distinct group keys is the list of
    these blocks. *)
Lemma buildGroups_blocks (m : GroupMap) :
  NoDup (map fst m) ->
  (forall g rows, In (g, rows) m ->
     rows <> [] /\ (forall r, In r rows -> groupKey r = g)
     /\ sortedAscending rows) ->
  buildGroups (List.concat (map snd m)) = m.
Proof.
  intros ND P. unfold buildGroups.
  rewrite (fold_blocks m []); simpl; auto.
  2: { intros g rows H. destruct (P g rows H) as (? & ? & ?). auto. }
  rewrite <- (map_id m) at 2. apply map_ext_in.
  intros [g rows] H. simpl. destruct (P g rows H) as (_ & _ & S).
  now rewrite sortBySort_sorted_id.
Qed.

Lemma flat_map_concat (f : string * list RowItem -> list RowItem)
  (m : GroupMap) :
  flat_map f m = List.concat (map snd (map (fun e => (fst e, f e)) m)).
Proof.
  rewrite map_map. simpl. apply flat_map_concat_map.
Qed.

(** X9. [recomputeGroupSizes] is idempotent. *)
Theorem recomputeGroupSizes_idempotent (data : list RowItem) :
  recomputeGroupSizes (recomputeGroupSizes data) = recomputeGroupSizes data.
Proof.
  destruct (buildGroups_facts data) as (ND & _ & P).
  unfold recomputeGroupSizes at 2.
  set (mark := fun g : string * list RowItem =>
         mapWithIndexFrom 0
           (fun r idx =>
              setGroupSize r
                (if Nat.eqb idx 0 then List.length (snd g) else 0%nat))
           (snd g)).
  rewrite (flat_map_concat mark).
  unfold recomputeGroupSizes. rewrite buildGroups_blocks.
  - fold mark. rewrite !flat_map_concat_map, map_map.
    f_equal. apply map_ext. intros [g rows]. unfold mark. simpl.
    now rewrite mark_length, mark_mark.
  - rewrite map_map. simpl. exact ND.
  - intros g rows H. apply in_map_iff in H.
    destruct H as ([g0 rows0] & E & H). simpl in E. injection E as <- <-.
    destruct (P g0 rows0 H) as [E N]. unfold mark. simpl. split; [|split].
    + intros X. apply N. apply (f_equal (@List.length _)) in X.
      rewrite mark_length in X. now destruct rows0.
    + intros r Hr. apply mapWithIndexFrom_In in Hr.
      destruct Hr as (x & i & Hx & ->). simpl. rewrite E in Hx.
      apply (proj1 (sortBySort_In _ _)) in Hx. apply members_In in Hx. tauto.
    + apply (sorted_by_sorts rows0); [now rewrite mark_sorts|].
      rewrite E. apply sortBySort_sorted.
Qed.

(** ** Collections whose groups are contiguous runs *)

Lemma runs_concat (data : list RowItem) :
  List.concat (map snd (runs data)) = data.
Proof.
  induction data as [|r t IH]; simpl; [reflexivity|].
  destruct (runs t) as [|[g rows] rest]; simpl in *.
  - now rewrite <- IH.
  - destruct (String.eqb (groupKey r) g); simpl; now rewrite <- IH.
Qed.

Lemma runs_head (r : RowItem) (t : list RowItem) :
  exists rows rest, runs (r :: t) = (groupKey r, rows) :: rest.
Proof.
  simpl. destruct (runs t) as [|[g rows] rest]; [eauto|].
  destruct (String.eqb (groupKey r) g) eqn:E; [|eauto].
  apply String.eqb_eq in E. subst g. eauto.
Qed.

Lemma runs_entries (data : list RowItem) :
  forall g rows, In (g, rows) (runs data) ->
  rows <> [] /\ forall r, In r rows -> groupKey r = g.
Proof.
  induction data as [|x t IH]; simpl; intros g rows H; [destruct H|].
  destruct (runs t) as [|[g0 rows0] rest].
  - destruct H as [H | []]. injection H as <- <-.
    split; [discriminate|]. intros r [<- | []]. reflexivity.
  - destruct (String.eqb (groupKey x) g0) eqn:E.
    + apply String.eqb_eq in E. destruct H as [H | H].
      * injection H as <- <-. split; [discriminate|].
        intros r [<- | Hr]; [exact E|].
        apply (IH g0 rows0 (or_introl eq_refl)), Hr.
      * apply IH. now right.
    + destruct H as [H | H].
      * injection H as <- <-. split; [discriminate|].
        intros r [<- | []]. reflexivity.
      * apply IH, H.
Qed.

Lemma runs_keys (data : list RowItem) (g : string) :
  In g (map fst (runs data)) -> exists r, In r data /\ groupKey r = g.
Proof.
  intros H. apply in_map_iff in H. destruct H as ([g0 rows] & E & H).
  simpl in E. subst g0. destruct (runs_entries data g rows H) as [N Hg].
  destruct rows as [|r rs]; [congruence|]. exists r. split.
  - rewrite <- (runs_concat data). apply in_concat. exists (r :: rs).
    split; [|now left]. apply in_map_iff. exists (g, r :: rs). auto.
  - apply Hg. now left.
Qed.

Lemma sortedAscending_app (l1 l2 : list RowItem) :
  sortedAscending (l1 ++ l2) -> sortedAscending l1 /\ sortedAscending l2.
Proof.
  induction l1 as [|x t IH]; simpl; [tauto|].
  intros [H1 H2]. destruct (IH H2) as [Ha Hb]. split; [|exact Hb].
  split; [|exact Ha]. apply Forall_app in H1. tauto.
Qed.

Lemma concat_block_sorted (m : list (list RowItem)) (rows : list RowItem) :
  In rows m -> sortedAscending (List.concat m) -> sortedAscending rows.
Proof.
  induction m as [|b t IH]; simpl; intros H S; [destruct H|].
  apply sortedAscending_app in S. destruct S as [Sb St].
  destruct H as [<- | H]; auto.
Qed.

Lemma groupsContiguous_tail (r : RowItem) (t : list RowItem) :
  groupsContiguous (r :: t) -> groupsContiguous t.
Proof.
  intros C g h Hne. destruct (C g h Hne) as [B | B]; [left | right];
    intros x y Hx Hy; apply B; now right.
Qed.

Lemma runs_NoDup (data : list RowItem) :
  sortedAscending data -> uniqueSorts data -> groupsContiguous data ->
  NoDup (map fst (runs data)).
Proof.
  unfold uniqueSorts.
  induction data as [|r t IH]; intros S U C; [constructor|].
  destruct S as [S1 S2]. inversion U as [|? ? Ur Ut]; subst.
  specialize (IH S2 Ut (groupsContiguous_tail _ _ C)).
  simpl. destruct (runs t) as [|[g rows] rest] eqn:E.
  - repeat constructor. tauto.
  - destruct (String.eqb (groupKey r) g) eqn:Eg; [exact IH|].
    apply String.eqb_neq in Eg. simpl. constructor; [|exact IH].
    intros Hin.
    assert (Hin' : In (groupKey r) (map fst (runs t))) by now rewrite E.
    apply runs_keys in Hin'. destruct Hin' as (z & Hz & Gz).
    destruct t as [|y t']; [destruct Hz|].
    destruct (runs_head y t') as (rows' & rest' & E').
    rewrite E' in E. injection E as Ey _ _.
    assert (Hry : sort r < sort y).
    { rewrite Forall_forall in S1.
      destruct (Qcle_lt_or_eq _ _ (S1 y (or_introl eq_refl))) as [H | H];
        [exact H|].
      exfalso. apply Ur. rewrite H. now left. }
    assert (Hyz : sort y < sort z).
    { destruct Hz as [-> | Hz]; [congruence|].
      destruct S2 as [S2 _]. rewrite Forall_forall in S2.
      destruct (Qcle_lt_or_eq _ _ (S2 z Hz)) as [H | H]; [exact H|].
      exfalso. inversion Ut as [|? ? Uy _]; subst. apply Uy.
      rewrite H. now apply in_map. }
    destruct (C (groupKey r) g Eg) as [B | B].
    + assert (X : sort z < sort y).
      { apply B; simpl; auto. }
      exact (Qclt_asym _ _ X Hyz).
    + assert (X : sort y < sort r).
      { apply B; simpl; auto. }
      exact (Qclt_asym _ _ X Hry).
Qed.

Lemma buildGroups_runs (data : list RowItem) :
  sortedAscending data -> uniqueSorts data -> groupsContiguous data ->
  buildGroups data = runs data.
Proof.
  intros S U C. rewrite <- (runs_concat data) at 1.
  apply buildGroups_blocks.
  - now apply runs_NoDup.
  - intros g rows H. destruct (runs_entries data g rows H) as [N Hg].
    split; [exact N|]. split; [exact Hg|].
    apply (concat_block_sorted (map snd (runs data))).
    + apply in_map_iff. exists (g, rows). auto.
    + now rewrite runs_concat.
Qed.

(** X10. Flattening the grouping index gives back the rows of the
    collection; when the collection is in ascending order of unique keys
    and its groups are contiguous it gives back the collection itself. *)
Theorem flattenAndResort_buildGroups (data : list RowItem) :
  Permutation (flattenAndResort (buildGroups data)) data
  /\ (sortedAscending data -> uniqueSorts data -> groupsContiguous data ->
      flattenAndResort (buildGroups data) = data).
Proof.
  unfold flattenAndResort. split.
  - rewrite flat_map_concat_map. unfold buildGroups. rewrite map_map. simpl.
    eapply perm_trans; [|apply (fold_mapPush_concat data [])]. simpl.
    generalize (fold_left mapPush data []). intros m.
    induction m as [|e t IH]; simpl; [constructor|].
    apply Permutation_app; [apply Permutation_sym, sortBySort_perm | exact IH].
  - intros S U C. rewrite (buildGroups_runs data S U C).
    rewrite flat_map_concat_map. apply runs_concat.
Qed.

Lemma flattenAndResort_buildGroups_witness :
  flattenAndResort (buildGroups initialData) = initialData.
Proof.
  apply (flattenAndResort_buildGroups initialData).
  - apply sortedAscending_check. vm_compute. reflexivity.
  - apply uniqueSorts_check. vm_compute. reflexivity.
  - apply groupsContiguous_check. vm_compute. reflexivity.
Defined.

(** X11. On a collection in ascending order of unique keys whose groups are
    contiguous, [recomputeGroupSizes] keeps every row in its place: only
    the [groupSize] fields differ from the input. *)
Theorem recomputeGroupSizes_keeps_order (data : list RowItem) :
  sortedAscending data -> uniqueSorts data -> groupsContiguous data ->
  map withoutGroupSize (recomputeGroupSizes data)
  = map withoutGroupSize data.
Proof.
  intros S U C. unfold recomputeGroupSizes.
  rewrite (buildGroups_runs data S U C).
  rewrite <- (runs_concat data) at 2.
  generalize (runs data). intros m.
  induction m as [|e t IH]; simpl; [reflexivity|].
  now rewrite !map_app, mark_without, IH.
Qed.

Lemma recomputeGroupSizes_keeps_order_witness :
  map withoutGroupSize (recomputeGroupSizes initialData)
  = map withoutGroupSize initialData.
Proof.
  apply (recomputeGroupSizes_keeps_order initialData).
  - apply sortedAscending_check. vm_compute. reflexivity.
  - apply uniqueSorts_check. vm_compute. reflexivity.
  - apply groupsContiguous_check. vm_compute. reflexivity.
Defined.

(** ** A completed drag *)

Lemma onDragEnd_dataSource (st : State) (active over : option string) :
  dataSource (onDragEnd st active over) = dataSource st
  \/ exists a o,
       active = Some a /\ over = Some o /\ a <> o
       /\ dataSource (onDragEnd st active over)
          = recomputeGroupSizes
              (computeNewSorts (sortedData (dataSource st)) a o).
Proof.
  unfold onDragEnd. destruct active as [a|], over as [o|]; try (now left).
  destruct (String.eqb a o) eqn:E; [now left|].
  apply String.eqb_neq in E. right. exists a, o. auto.
Qed.

Lemma erase_map (B : Type) (f : RowItem -> B) (l1 l2 : list RowItem) :
  (forall r, f (setSort r 0) = f r) ->
  map (fun r => setSort r 0) l1 = map (fun r => setSort r 0) l2 ->
  map f l1 = map f l2.
Proof.
  intros Hf H.
  rewrite <- (map_ext (fun r => f (setSort r 0)) f Hf l1).
  rewrite <- (map_ext (fun r => f (setSort r 0)) f Hf l2).
  rewrite <- !(map_map (fun r => setSort r 0) f). now rewrite H.
Qed.

(** X16. [onDragEnd] always clears the active identifier and the drop
    indicator.  It leaves the data source untouched when the dragged or
    the target element is missing or both identifiers are equal; in every
    case the data source keeps the same rows as far as key, groupKey,
    category, name and count are concerned. *)
Theorem onDragEnd_state (st : State) (active over : option string) :
  activeId (onDragEnd st active over) = None
  /\ indicatorPos (onDragEnd st active over) = None
  /\ (active = None \/ over = None \/ active = over ->
      dataSource (onDragEnd st active over) = dataSource st)
  /\ Permutation
       (map (fun r => (key r, groupKey r, category r, name r, count r))
          (dataSource (onDragEnd st active over)))
       (map (fun r => (key r, groupKey r, category r, name r, count r))
          (dataSource st)).
Proof.
  split; [|split; [|split]].
  - unfold onDragEnd. destruct active as [a|], over as [o|]; try reflexivity.
    destruct (String.eqb a o); reflexivity.
  - unfold onDragEnd. destruct active as [a|], over as [o|]; try reflexivity.
    destruct (String.eqb a o); reflexivity.
  - intros H. unfold onDragEnd.
    destruct active as [a|], over as [o|]; try reflexivity.
    destruct H as [H | [H | H]]; try discriminate.
    injection H as ->. now rewrite String.eqb_refl.
  - destruct (onDragEnd_dataSource st active over)
      as [E | (a & o & _ & _ & _ & E)]; rewrite E; [apply Permutation_refl|].
    set (moved := computeNewSorts (sortedData (dataSource st)) a o).
    pose proof (recomputeGroupSizes_without moved) as PR.
    apply (Permutation_map (fun t => fst t)) in PR.
    rewrite !map_map in PR. simpl in PR.
    eapply perm_trans; [exact PR|].
    unfold moved.
    rewrite (erase_map _
               (fun r => (key r, groupKey r, category r, name r, count r))
               _ _ (fun r => eq_refl)
               (computeNewSorts_erase (sortedData (dataSource st)) a o)).
    apply Permutation_map, Permutation_sym, sortBySort_perm.
Qed.

Lemma onDragEnd_state_witness :
  dataSource
    (onDragEnd (mkState initialData (Some (rowId "1-2")) None)
       (Some (rowId "1-2")) (Some (rowId "1-2")))
  = initialData.
Proof.
  apply (onDragEnd_state (mkState initialData (Some (rowId "1-2")) None)
           (Some (rowId "1-2")) (Some (rowId "1-2"))).
  right; right; reflexivity.
Defined.

(** ** The drop indicator and the hidden rows *)

Lemma removeFirst_prefix (pat s : string) :
  String.prefix pat s = true ->
  removeFirst pat s = slice s (String.length pat).
Proof.
  intros H. destruct s as [|c t].
  - destruct pat; [reflexivity | discriminate H].
  - unfold removeFirst; fold removeFirst. now rewrite H.
Qed.

Lemma removeFirst_rowId (k : string) : removeFirst "row:" (rowId k) = k.
Proof.
  rewrite removeFirst_prefix; [apply slice_row | apply startsWith_row].
Qed.

Lemma removeFirst_groupId (g : string) : removeFirst "group:" (groupId g) = g.
Proof.
  rewrite removeFirst_prefix; [apply slice_group | apply startsWith_group].
Qed.

Lemma rowId_inj (k1 k2 : string) : rowId k1 = rowId k2 -> k1 = k2.
Proof. intros H. injection H. auto. Qed.

Lemma members_sortedData (ds : list RowItem) (g : string) (x : RowItem) :
  In x (members (sortedData ds) g) <-> In x ds /\ groupKey x = g.
Proof.
  rewrite members_In. unfold sortedData. rewrite sortBySort_In. reflexivity.
Qed.

Lemma onDragMove_facts (st : State) :
  (forall over,
     dataSource (onDragMove st over) = dataSource st
     /\ activeId (onDragMove st over) = activeId st)
  /\ indicatorPos (onDragMove st None) = None
  /\ (forall k,
        indicatorPos (onDragMove st (Some (rowId k)))
        = Some (mkIndicator k before))
  /\ (forall g,
        (members (dataSource st) g = [] ->
         onDragMove st (Some (groupId g)) = st)
        /\ (members (dataSource st) g <> [] ->
            exists l,
              In l (dataSource st) /\ groupKey l = g
              /\ (forall x, In x (dataSource st) -> groupKey x = g ->
                    sort x <= sort l)
              /\ indicatorPos (onDragMove st (Some (groupId g)))
                 = Some (mkIndicator (key l) after))).
Proof.
  split; [|split; [reflexivity|split]].
  - intros over. unfold onDragMove.
    destruct over as [id|]; [|split; reflexivity].
    destruct (String.eqb id ""); [split; reflexivity|].
    destruct (startsWith id "group:"); [|split; reflexivity].
    destruct (lastRow _); split; reflexivity.
  - intros k. unfold onDragMove. simpl String.eqb. cbv iota.
    rewrite startsWith_row_group, removeFirst_rowId. reflexivity.
  - intros g. unfold onDragMove. simpl String.eqb. cbv iota.
    rewrite startsWith_group, slice_group.
    fold (members (sortedData (dataSource st)) g). split.
    + intros E.
      assert (X : members (sortedData (dataSource st)) g = []).
      { destruct (members (sortedData (dataSource st)) g) as [|x t] eqn:M;
          [reflexivity|].
        assert (Hx : In x (members (sortedData (dataSource st)) g))
          by (rewrite M; now left).
        apply members_sortedData in Hx. apply members_In in Hx.
        rewrite E in Hx. destruct Hx. }
      rewrite X. reflexivity.
    + intros N.
      destruct (lastRow (sortBySort (members (sortedData (dataSource st)) g)))
        as [l|] eqn:L.
      * apply sortBySort_last in L. destruct L as [Hl Hmax].
        apply members_sortedData in Hl. exists l.
        split; [tauto|]. split; [tauto|]. split; [|reflexivity].
        intros x Hx Hg. apply Hmax, members_sortedData. auto.
      * exfalso. apply lastRow_None, sortBySort_nil in L.
        destruct (members (dataSource st) g) as [|x t] eqn:M; [congruence|].
        assert (Hx : In x (members (dataSource st) g)) by (rewrite M; now left).
        apply members_In in Hx. apply members_sortedData in Hx.
        rewrite L in Hx. destruct Hx.
Qed.

(** X17. [onDragMove] changes only the drop indicator.  With nothing under
    the pointer the indicator is cleared; over a row identifier it is set
    before the row with that key; over the identifier of a group with
    members it is set after the member with the largest order key; over the
    identifier of a group without members it is left as it was. *)
Theorem onDragMove_indicator (st : State) :
  (forall over,
     dataSource (onDragMove st over) = dataSource st
     /\ activeId (onDragMove st over) = activeId st)
  /\ indicatorPos (onDragMove st None) = None
  /\ (forall k,
        indicatorPos (onDragMove st (Some (rowId k)))
        = Some (mkIndicator k before))
  /\ (forall g,
        (members (dataSource st) g = [] ->
         onDragMove st (Some (groupId g)) = st)
        /\ (members (dataSource st) g <> [] ->
            exists l,
              In l (dataSource st) /\ groupKey l = g
              /\ (forall x, In x (dataSource st) -> groupKey x = g ->
                    sort x <= sort l)
              /\ indicatorPos (onDragMove st (Some (groupId g)))
                 = Some (mkIndicator (key l) after))).
Proof. exact (onDragMove_facts st). Qed.

Lemma onDragMove_indicator_witness :
  exists l,
    In l initialData /\ groupKey l = "group-A"
    /\ (forall x, In x initialData -> groupKey x = "group-A" ->
          sort x <= sort l)
    /\ indicatorPos
         (onDragMove (mkState initialData None None)
            (Some (groupId "group-A")))
       = Some (mkIndicator (key l) after).
Proof.
  apply (onDragMove_indicator (mkState initialData None None)).
  simpl. discriminate.
Defined.

(** X18. While the pointer is over a row identifier, [rowClassName] marks
    exactly the rows with that key as drop target; while it is over the
    identifier of a group with members, no row is marked. *)
Theorem rowClassName_after_move (st : State) (record : RowItem) :
  (forall k,
     rowClassName (onDragMove st (Some (rowId k))) record
     = if String.eqb k (key record) then "drop-indicator-row" else "")
  /\ (forall g, members (dataSource st) g <> [] ->
        rowClassName (onDragMove st (Some (groupId g))) record = "").
Proof.
  split.
  - intros k. unfold rowClassName.
    destruct (onDragMove_facts st) as (_ & _ & H & _). rewrite (H k).
    simpl. now rewrite andb_true_r.
  - intros g N. unfold rowClassName.
    destruct (onDragMove_facts st) as (_ & _ & _ & H).
    destruct (proj2 (H g) N) as (l & _ & _ & _ & E). rewrite E. simpl.
    now rewrite andb_false_r.
Qed.

Lemma rowClassName_after_move_witness :
  rowClassName
    (onDragMove (mkState initialData None None) (Some (groupId "group-A")))
    (mkRow "1-3" "group-A" None "A" "产品 A3" 30 (Qc_of_Z 3))
  = "".
Proof.
  apply (rowClassName_after_move (mkState initialData None None)).
  simpl. discriminate.
Defined.

(** X19. While a group is being dragged, [DraggableRow] hides exactly the
    rows of that group; while a row is being dragged it hides exactly the
    rows with that key; with no drag in progress nothing is hidden. *)
Theorem isHidden_spec (record : RowItem) :
  (forall g,
     isHidden (Some (groupId g)) record = String.eqb (groupKey record) g)
  /\ (forall k, isHidden (Some (rowId k)) record = String.eqb k (key record))
  /\ isHidden None record = false.
Proof.
  split; [|split; [|reflexivity]].
  - intros g. unfold isHidden, isCurrentGroupDragging, isCurrentRowDragging.
    rewrite startsWith_group, removeFirst_groupId. simpl.
    now rewrite orb_false_r.
  - intros k. unfold isHidden, isCurrentGroupDragging, isCurrentRowDragging.
    rewrite startsWith_row_group, andb_false_r.
    change (String.eqb (rowId k) (rowId (key record))
            = String.eqb k (key record)).
    destruct (String.eqb k (key record)) eqn:E.
    + apply String.eqb_eq in E. subst k. apply String.eqb_refl.
    + apply String.eqb_neq in E. apply String.eqb_neq. intros H.
      apply rowId_inj in H. contradiction.
Qed.

(** * The sort calculation in binary64 *)

(** C6. On the seed collection, moving group-B onto group-A (an up-move with
    no predecessor of key 1, hence lower bound 0) gives group-B's two
    members the keys 1/3 and 2/3, as binary64 numbers, in their original
    order, and leaves every row of group-A and group-C unchanged. *)
Theorem seed_move_groupB_before_groupA :
  Float64.computeNewSorts Float64.initialData
    (groupId "group-B") (groupId "group-A")
  = [ Float64.mkRow "1-1" "group-A" (Some 3%nat) "A" "产品 A1" 10 1%float;
      Float64.mkRow "1-2" "group-A" None "A" "产品 A2" 20 2%float;
      Float64.mkRow "1-3" "group-A" None "A" "产品 A3" 30 3%float;
      Float64.mkRow "2-1" "group-B" (Some 2%nat) "B" "产品 B1" 5
        (PrimFloat.div 1%float 3%float);
      Float64.mkRow "2-2" "group-B" None "B" "产品 B2" 15
        (PrimFloat.div 2%float 3%float);
      Float64.mkRow "3-1" "group-C" (Some 1%nat) "C" "产品 C1" 40 6%float ]
  /\ Float64.getSortForId Float64.initialData (groupId "group-A") false
     = Some 1%float
  /\ Float64.findPrevSort Float64.initialData 1%float = None
  /\ PrimFloat.div 1%float 3%float = 0x1.5555555555555p-2%float
  /\ PrimFloat.div 2%float 3%float = 0x1.5555555555555p-1%float
  /\ PrimFloat.ltb (PrimFloat.div 1%float 3%float)
       (PrimFloat.div 2%float 3%float) = true.
Proof. repeat split; vm_compute; reflexivity. Qed.

(** Around 2^53 the midpoint of a key and its successor rounds to the key
    itself. *)
Lemma rowsNear2p53_row_move :
  Float64.distinctSorts (map Float64.sort Float64.rowsNear2p53) = true
  /\ Float64.positiveSorts Float64.rowsNear2p53 = true
  /\ Float64.getSortForId Float64.rowsNear2p53 (rowId "a") false
     = Some 1%float
  /\ Float64.getSortForId Float64.rowsNear2p53 (rowId "b") false
     = Some 0x1p53%float
  /\ Float64.findNextSort Float64.rowsNear2p53 0x1p53%float
     = Some 0x1.0000000000001p53%float
  /\ map Float64.sort
       (Float64.computeNewSorts Float64.rowsNear2p53 (rowId "a") (rowId "b"))
     = [0x1p53%float; 0x1p53%float; 0x1.0000000000001p53%float].
Proof. repeat split; vm_compute; reflexivity. Qed.

Lemma rowsNear2p53_group_move :
  Float64.distinctSorts (map Float64.sort Float64.rowsNear2p53) = true
  /\ Float64.positiveSorts Float64.rowsNear2p53 = true
  /\ Float64.groupsContiguous Float64.rowsNear2p53 = true
  /\ Float64.getSortForId Float64.rowsNear2p53 (groupId "G") false
     = Some 1%float
  /\ Float64.getSortForId Float64.rowsNear2p53 (groupId "H") false
     = Some 0x1p53%float
  /\ map Float64.sort
       (Float64.computeNewSorts Float64.rowsNear2p53
          (groupId "G") (groupId "H"))
     = [0x1p53%float; 0x1p53%float; 0x1.0000000000001p53%float]
  /\ Float64.groupsContiguous
       (Float64.computeNewSorts Float64.rowsNear2p53
          (groupId "G") (groupId "H"))
     = false.
Proof. repeat split; vm_compute; reflexivity. Qed.

Lemma pairBelow2p53_group_move :
  Float64.sortedAscending Float64.pairBelow2p53 = true
  /\ Float64.distinctSorts (map Float64.sort Float64.pairBelow2p53) = true
  /\ Float64.positiveSorts Float64.pairBelow2p53 = true
  /\ Float64.groupsContiguous Float64.pairBelow2p53 = true
  /\ Float64.getSortForId Float64.pairBelow2p53 (groupId "G") false
     = Some 1%float
  /\ Float64.getSortForId Float64.pairBelow2p53 (groupId "H") false
     = Some 0x1p53%float
  /\ map Float64.sort
       (Float64.computeNewSorts Float64.pairBelow2p53
          (groupId "G") (groupId "H"))
     = [0x1.0000000000001p53%float; 0x1.0000000000001p53%float; 0x1p53%float].
Proof. repeat split; vm_compute; reflexivity. Qed.

(** C1, as stated, fails in two ways.  A single-row move into another group
    leaves the groups interleaved, because the moved row keeps its
    [groupKey].  And in binary64 a group moved onto a group whose key is
    2^53 receives that very key, so neither group is strictly below the
    other. *)
Lemma moves_break_groups_contiguous :
  (uniqueSorts initialData /\ positiveSorts initialData
   /\ groupsContiguous initialData
   /\ getSortForId initialData (rowId "1-2") false = Some (Qc_of_Z 2)
   /\ getSortForId initialData (rowId "2-1") false = Some (Qc_of_Z 4)
   /\ ~ groupsContiguous
          (computeNewSorts initialData (rowId "1-2") (rowId "2-1")))
  /\ (Float64.distinctSorts (map Float64.sort Float64.rowsNear2p53) = true
      /\ Float64.positiveSorts Float64.rowsNear2p53 = true
      /\ Float64.groupsContiguous Float64.rowsNear2p53 = true
      /\ Float64.getSortForId Float64.rowsNear2p53 (groupId "G") false
         = Some 1%float
      /\ Float64.getSortForId Float64.rowsNear2p53 (groupId "H") false
         = Some 0x1p53%float
      /\ Float64.groupsContiguous
           (Float64.computeNewSorts Float64.rowsNear2p53
              (groupId "G") (groupId "H"))
         = false).
Proof.
  split; [exact row_move_breaks_groups_contiguous|].
  destruct rowsNear2p53_group_move as (H1 & H2 & H3 & H4 & H5 & _ & H7).
  repeat split; assumption.
Qed.

(** C2, as stated, fails when two rows carry the same identifier: the
    collection is sorted, its order keys are unique and positive and its
    groups contiguous, and moving row k onto row z gives both rows k the
    key 6. *)
Lemma duplicate_row_keys_share_sort :
  sortedAscending duplicateKeyData /\ uniqueSorts duplicateKeyData
  /\ positiveSorts duplicateKeyData /\ groupsContiguous duplicateKeyData
  /\ map sort (computeNewSorts duplicateKeyData (rowId "k") (rowId "z"))
     = [Qc_of_Z 6; Qc_of_Z 6; Qc_of_Z 5]
  /\ ~ uniqueSorts (computeNewSorts duplicateKeyData (rowId "k") (rowId "z")).
Proof.
  assert (E : computeNewSorts duplicateKeyData (rowId "k") (rowId "z")
              = [ mkRow "k" "G" (Some 2%nat) "G" "k1" 1 (Qc_of_Z 6);
                  mkRow "k" "G" None "G" "k2" 1 (Qc_of_Z 6);
                  mkRow "z" "H" (Some 1%nat) "H" "z" 1 (Qc_of_Z 5) ])
    by (apply rowsEqb_eq; vm_compute; reflexivity).
  split; [apply sortedAscending_check; vm_compute; reflexivity|].
  split; [apply uniqueSorts_check; vm_compute; reflexivity|].
  split; [apply positiveSorts_check; vm_compute; reflexivity|].
  split; [apply groupsContiguous_check; vm_compute; reflexivity|].
  rewrite E. split; [reflexivity|].
  unfold uniqueSorts. simpl. intros H. inversion H as [|? ? Hn _]; subst.
  apply Hn. now left.
Qed.

(** C4, as stated, fails in two ways.  On a collection that is not sorted
    the members are renumbered in collection order, which reverses their
    order by key.  And in binary64, on a sorted collection, a group of two
    moved behind the key 2^53 gets the key 2^53 + 2 for both members. *)
Lemma group_move_order_not_preserved :
  (uniqueSorts unsortedData /\ positiveSorts unsortedData
   /\ groupsContiguous unsortedData
   /\ getSortForId unsortedData (groupId "G") false = Some (Qc_of_Z 1)
   /\ getSortForId unsortedData (groupId "H") false = Some (Qc_of_Z 3)
   /\ ~ orderPreserved (members unsortedData "G")
          (members (computeNewSorts unsortedData (groupId "G") (groupId "H"))
             "G"))
  /\ (Float64.sortedAscending Float64.pairBelow2p53 = true
      /\ Float64.distinctSorts (map Float64.sort Float64.pairBelow2p53) = true
      /\ Float64.positiveSorts Float64.pairBelow2p53 = true
      /\ Float64.groupsContiguous Float64.pairBelow2p53 = true
      /\ Float64.getSortForId Float64.pairBelow2p53 (groupId "G") false
         = Some 1%float
      /\ Float64.getSortForId Float64.pairBelow2p53 (groupId "H") false
         = Some 0x1p53%float
      /\ map Float64.sort
           (Float64.computeNewSorts Float64.pairBelow2p53
              (groupId "G") (groupId "H"))
         = [0x1.0000000000001p53%float; 0x1.0000000000001p53%float;
            0x1p53%float]).
Proof.
  split; [exact unsorted_group_move_reverses_order|].
  exact pairBelow2p53_group_move.
Qed.

(** C5, as stated, fails in binary64: the collection has unique positive
    keys, row a is moved down onto row b, whose key 2^53 has the successor
    2^53 + 2, and the midpoint rounds to 2^53, so the new key of row a is
    the key of row b and not strictly above it. *)
Lemma midpoint_meets_target_in_binary64 :
  Float64.distinctSorts (map Float64.sort Float64.rowsNear2p53) = true
  /\ Float64.positiveSorts Float64.rowsNear2p53 = true
  /\ Float64.getSortForId Float64.rowsNear2p53 (rowId "a") false
     = Some 1%float
  /\ Float64.getSortForId Float64.rowsNear2p53 (rowId "b") false
     = Some 0x1p53%float
  /\ Float64.findNextSort Float64.rowsNear2p53 0x1p53%float
     = Some 0x1.0000000000001p53%float
  /\ map Float64.sort
       (Float64.computeNewSorts Float64.rowsNear2p53 (rowId "a") (rowId "b"))
     = [0x1p53%float; 0x1p53%float; 0x1.0000000000001p53%float]
  /\ PrimFloat.ltb 0x1p53%float
       (PrimFloat.add 0x1p53%float
          (PrimFloat.div
             (PrimFloat.sub 0x1.0000000000001p53%float 0x1p53%float)
             2%float))
     = false.
Proof.
  destruct rowsNear2p53_row_move as (H1 & H2 & H3 & H4 & H5 & H6).
  repeat split; try assumption; vm_compute; reflexivity.
Qed.

(** X22. Repeated midpoint insertion at one place exhausts the precision of
    binary64: starting from the keys 1, 2, 3 and moving rows c and b in
    turn up onto each other, the keys are still distinct after 52 moves
    (1, 1 + 2^-52, 1 + 2^-51), and the 53rd move gives row c the key 1 of
    row a. *)
Theorem midpoints_exhaust_precision :
  map Float64.sort (Nat.iter 26 Float64.swapTwice Float64.oneTwoThree)
  = [1%float; 0x1.0000000000001p0%float; 0x1.0000000000002p0%float]
  /\ Float64.distinctSorts
       (map Float64.sort (Nat.iter 26 Float64.swapTwice Float64.oneTwoThree))
     = true
  /\ map Float64.sort
       (Float64.computeNewSorts
          (Nat.iter 26 Float64.swapTwice Float64.oneTwoThree)
          (rowId "c") (rowId "b"))
     = [1%float; 0x1.0000000000001p0%float; 1%float]
  /\ Float64.distinctSorts
       (map Float64.sort
          (Float64.computeNewSorts
             (Nat.iter 26 Float64.swapTwice Float64.oneTwoThree)
             (rowId "c") (rowId "b")))
     = false.
Proof. repeat split; vm_compute; reflexivity. Qed.
